(** * RT-SLAM robotAbstract.hpp: the Control class and the motion protocol of
      RobotAbstract, as a shallow embedding.

    Source: include/rtslam/robotAbstract.hpp.

    - [double] is an abstract scalar type with a zero, a one, an addition and a
      multiplication (class [Scalar]); no law is assumed unless a statement
      lists it, so rounding is not modelled and every law-free statement holds
      for any interpretation of the four operations.
    - jblas::vec is a list of scalars, jblas::mat and jblas::sym_mat are lists
      of rows; [size1] is the number of rows.
    - A member function is a state transformer that either returns or throws;
      a throw keeps the state as it was when the exception left the function,
      so writes made before a failing assertion stay visible. *)

From Stdlib Require Import String.
From Stdlib Require Import List Arith Lia ZArith Bool.
From Stdlib Require Import Ring_theory Ring.
Import ListNotations.

Set Implicit Arguments.

(** ** Scalars *)

Class Scalar (R : Type) : Type := {
  s_zero : R;
  s_one : R;
  s_add : R -> R -> R;
  s_mul : R -> R -> R
}.

Declare Scope scalar_scope.
Delimit Scope scalar_scope with sc.
Notation "a + b" := (s_add a b) : scalar_scope.
Notation "a * b" := (s_mul a b) : scalar_scope.

(** ** jblas: vectors and matrices *)

Module jblas.

Definition vec (R : Type) := list R.
Definition mat (R : Type) := list (list R).
Definition sym_mat (R : Type) := list (list R).

Section Ops.
Context {R : Type} `{Scalar R}.

Definition size1 (m : mat R) : nat := length m.
Definition size2 (m : mat R) : nat := length (hd [] m).

(** m(i, j); reading outside the stored entries gives zero. *)
Definition at_ (m : mat R) (i j : nat) : R := nth j (nth i m []) s_zero.
Definition vat (v : vec R) (i : nat) : R := nth i v s_zero.

Definition mk_vec (n : nat) (f : nat -> R) : vec R := map f (seq 0 n).
Definition mk_mat (n m : nat) (f : nat -> nat -> R) : mat R :=
  map (fun i => map (fun j => f i j) (seq 0 m)) (seq 0 n).

Definition zero_vec (n : nat) : vec R := mk_vec n (fun _ => s_zero).
Definition zero_mat (n m : nat) : mat R := mk_mat n m (fun _ _ => s_zero).

(** The accumulation loop [t = 0; for k < n: t += f k]. *)
Fixpoint sum (n : nat) (f : nat -> R) : R :=
  match n with
  | O => s_zero
  | S k => (sum k f + f k)%sc
  end.

(** [v * s] and [m * s]: every entry times the scalar. *)
Definition vscale (v : vec R) (s : R) : vec R := map (fun e => (e * s)%sc) v.
Definition mscale (m : mat R) (s : R) : mat R := map (fun r => vscale r s) m.

(** [prod(a, b)]. *)
Definition prod (a b : mat R) : mat R :=
  mk_mat (size1 a) (size2 b)
    (fun i j => sum (size2 a) (fun k => (at_ a i k * at_ b k j)%sc)).

(** [prod(a, trans(b))]; [trans] is a view, no transposed copy is built. *)
Definition prod_t (a b : mat R) : mat R :=
  mk_mat (size1 a) (size1 b)
    (fun i j => sum (size2 a) (fun k => (at_ a i k * at_ b j k)%sc)).

(** [a + b]. *)
Definition madd (a b : mat R) : mat R :=
  mk_mat (size1 a) (size2 a) (fun i j => (at_ a i j + at_ b i j)%sc).

(** What a [sym_mat] holds after a square matrix was assigned to it: the type
    stores one triangle, the lower one, and reads the other from it. *)
Definition as_sym_mat (a : mat R) : sym_mat R :=
  mk_mat (size1 a) (size1 a)
    (fun i j => if j <=? i then at_ a i j else at_ a j i).

(** The quadratic form v^t . a . v, and the vectors it is tried on. *)
Definition quad (a : mat R) (v : vec R) : R :=
  sum (length v)
    (fun i => sum (length v) (fun j => (vat v i * at_ a i j * vat v j)%sc)).
Definition delta (i k : nat) : R := if k =? i then s_one else s_zero.
Definition unit_vec (n i : nat) : vec R := mk_vec n (delta i).
Definition unit_pair (n i j : nat) : vec R :=
  mk_vec n (fun k => (delta i k + delta j k)%sc).

(** Shape predicates: an n x m matrix, a symmetric n x n one. *)
Definition rows_of (m : nat) (a : mat R) : Prop :=
  Forall (fun r => length r = m) a.
Definition has_shape (n m : nat) (a : mat R) : Prop :=
  length a = n /\ rows_of m a.
Definition symmetric (a : mat R) : Prop :=
  forall i j, at_ a i j = at_ a j i.
End Ops.

End jblas.

Import jblas.

(** ** Errors and the monad of member functions *)

Inductive error : Type :=
| SizeMismatch (message : string)
| UninitializedContinuousState (message : string)
| MotionModelFailure.

Inductive outcome (S A : Type) : Type :=
| Done (a : A) (s : S)
| Throw (e : error) (s : S).
Arguments Done {S A} a s.
Arguments Throw {S A} e s.

Definition M (S A : Type) : Type := S -> outcome S A.

Definition ret {S A} (a : A) : M S A := fun s => Done a s.
Definition bind {S A B} (m : M S A) (k : A -> M S B) : M S B :=
  fun s => match m s with
           | Done a s' => k a s'
           | Throw e s' => Throw e s'
           end.
Definition get {S} : M S S := fun s => Done s s.
Definition put {S} (s : S) : M S unit := fun _ => Done tt s.

Notation "x <- m ;; k" := (bind m (fun x => k))
  (at level 61, m at next level, right associativity).
Notation "m ;; k" := (bind m (fun _ => k))
  (at level 61, right associativity).

(** The state an outcome ends in, returned or thrown. *)
Definition final {S A} (o : outcome S A) : S :=
  match o with Done _ s => s | Throw _ s => s end.
Definition returned {S A} (o : outcome S A) : bool :=
  match o with Done _ _ => true | Throw _ _ => false end.

(** Run a member function of a sub-object inside its owner. *)
Definition within {S T A} (prj : S -> T) (upd : T -> S -> S) (m : M T A) : M S A :=
  fun s => match m (prj s) with
           | Done a t => Done a (upd t s)
           | Throw e t => Throw e (upd t s)
           end.

(** Modelled from the spec: the macro JFR_ASSERT comes from the jafar kernel
    headers, which are not part of the sources.  Section 7 makes a violated
    precondition fatal to the call: the assertion throws when its predicate
    is false and does nothing otherwise.  The error is the one section 7
    gives to the kind of check (a size comparison, or a continuous value
    that was not initialised); it carries the assertion's message. *)
Definition JFR_ASSERT {S} (predicate : bool) (e : error) : M S unit :=
  fun s => if predicate then Done tt s else Throw e s.

(** ** Gaussian *)

Module Gaussian.
Section Def.
Context {R : Type} `{Scalar R}.

(** Modelled from the spec: rtslam/gaussian.hpp is not part of the sources.
    Section 3: a mean vector and a symmetric covariance matrix of one fixed
    size. *)
Record t : Type := mk { size : nat; x : vec R; P : sym_mat R }.

(** [Gaussian(_size)]: mean and covariance of that size, cleared. *)
Definition create (_size : nat) : t :=
  mk _size (zero_vec _size) (zero_mat _size _size).

(** Modelled from the spec: the setters [x(v)] and [P(m)].  Section 7: an
    operation that receives a vector or matrix whose dimension disagrees
    with the expected size fails with SizeMismatch. *)
Definition set_x (v : vec R) : M t unit :=
  g <- get ;;
  JFR_ASSERT (length v =? size g) (SizeMismatch "gaussian.hpp: set_x: size mismatch.") ;;
  put (mk (size g) v (P g)).

Definition set_P (m : sym_mat R) : M t unit :=
  g <- get ;;
  JFR_ASSERT (size1 m =? size g) (SizeMismatch "gaussian.hpp: set_P: size mismatch.") ;;
  put (mk (size g) (x g) m).

(** Mean and covariance have the dimension of the Gaussian. *)
Definition well_sized (g : t) : Prop :=
  length (x g) = size g /\ size1 (P g) = size g.
End Def.
Arguments t R : clear implicits.
End Gaussian.

(** ** Control *)

Module Control.
Section Def.
Context {R : Type} `{Scalar R}.

(** [class Control : public Gaussian], with the private continuous-time
    members and the public [dt]. *)
Record t : Type := mk {
  base : Gaussian.t R;
  x_ct : vec R;
  P_ct : sym_mat R;
  dt : R
}.

Definition size (c : t) : nat := Gaussian.size (base c).
Definition x (c : t) : vec R := Gaussian.x (base c).
Definition P (c : t) : sym_mat R := Gaussian.P (base c).

Definition with_base (g : Gaussian.t R) (c : t) : t := mk g (x_ct c) (P_ct c) (dt c).
Definition with_x_ct (v : vec R) (c : t) : t := mk (base c) v (P_ct c) (dt c).
Definition with_P_ct (m : sym_mat R) (c : t) : t := mk (base c) (x_ct c) m (dt c).
Definition with_dt (d : R) (c : t) : t := mk (base c) (x_ct c) (P_ct c) d.

(** The Control with another mean, another covariance. *)
Definition with_x (v : vec R) (c : t) : t :=
  with_base (Gaussian.mk (size c) v (P c)) c.
Definition with_P (m : sym_mat R) (c : t) : t :=
  with_base (Gaussian.mk (size c) (x c) m) c.

(** The inherited setters [x(v)] and [P(m)]. *)
Definition set_x (v : vec R) : M t unit := within base with_base (Gaussian.set_x v).
Definition set_P (m : sym_mat R) : M t unit := within base with_base (Gaussian.set_P m).

(** The three constructors; [x_ct] and [P_ct] are default-constructed, of
    size 0. *)
Definition of_size (_size : nat) : t := mk (Gaussian.create _size) [] [] s_one.
Definition of_Gaussian (c : Gaussian.t R) : t := mk c [] [] s_one.
Definition of_Gaussian_dt (c : Gaussian.t R) (_dt : R) : t := mk c [] [] _dt.

(** [set_P_continuous]: the resize to size() x size() is followed by the
    assignment of a matrix of that size, which leaves P_ct = _P_ct. *)
Definition set_P_continuous (_P_ct : sym_mat R) : M t unit :=
  c <- get ;;
  JFR_ASSERT (size1 _P_ct =? size c) (SizeMismatch "Matrix sizes mismatch.") ;;
  put (with_P_ct _P_ct c).

Definition set_x_continuous (_x_ct : vec R) : M t unit :=
  c <- get ;;
  JFR_ASSERT (length _x_ct =? size c) (SizeMismatch "Vector sizes mismatch.") ;;
  put (with_x_ct _x_ct c).

(** [convert_P_from_continuous(double _dt)]. *)
Definition convert_P_from_continuous (_dt : R) : M t unit :=
  c <- get ;;
  JFR_ASSERT (size1 (P_ct c) =? size c)
    (UninitializedContinuousState "Continuous-time covariance not yet initialized.") ;;
  set_P (mscale (P_ct c) _dt).

(** [convert_P_from_continuous(sym_mat & _P_ct, double _dt)]. *)
Definition convert_P_from_continuous_P (_P_ct : sym_mat R) (_dt : R) : M t unit :=
  c <- get ;;
  JFR_ASSERT (size1 _P_ct =? size c) (SizeMismatch "Matrix sizes mismatch.") ;;
  set_P_continuous _P_ct ;;
  c' <- get ;;
  set_P (mscale (P_ct c') _dt).

(** [convert_from_continuous(double _dt)]. *)
Definition convert_from_continuous (_dt : R) : M t unit :=
  c <- get ;;
  JFR_ASSERT (length (x_ct c) =? size c)
    (UninitializedContinuousState "Continuous-time values not yet initialized.") ;;
  set_x (vscale (x_ct c) _dt) ;;
  set_P (mscale (P_ct c) _dt) ;;
  c' <- get ;;
  put (with_dt _dt c').

(** [convert_from_continuous(Gaussian & Ct, double _dt)]. *)
Definition convert_from_continuous_G (Ct : Gaussian.t R) (_dt : R) : M t unit :=
  c <- get ;;
  JFR_ASSERT (Gaussian.size Ct =? size c) (SizeMismatch "Sizes mismatch") ;;
  set_P_continuous (Gaussian.P Ct) ;;
  set_x_continuous (Gaussian.x Ct) ;;
  convert_from_continuous _dt.

(** The calls a client can make on a Control, for statements about what was
    or was not done to it before. *)
Inductive call : Type :=
| Set_P_continuous (_P_ct : sym_mat R)
| Set_x_continuous (_x_ct : vec R)
| Convert_P (_dt : R)
| Convert_P_P (_P_ct : sym_mat R) (_dt : R)
| Convert (_dt : R)
| Convert_G (Ct : Gaussian.t R) (_dt : R)
| Assign_dt (_dt : R).

Definition perform (k : call) : M t unit :=
  match k with
  | Set_P_continuous m => set_P_continuous m
  | Set_x_continuous v => set_x_continuous v
  | Convert_P d => convert_P_from_continuous d
  | Convert_P_P m d => convert_P_from_continuous_P m d
  | Convert d => convert_from_continuous d
  | Convert_G g d => convert_from_continuous_G g d
  | Assign_dt d => c <- get ;; put (with_dt d c)
  end.

(** A client that catches what a call throws and goes on: the Control is
    left as the call left it. *)
Definition after (ks : list call) (c : t) : t :=
  fold_left (fun c k => final (perform k c)) ks c.

(** Calls that hand the Control a continuous covariance, or a continuous
    mean. *)
Definition stores_P (k : call) : bool :=
  match k with
  | Set_P_continuous _ | Convert_P_P _ _ | Convert_G _ _ => true
  | _ => false
  end.
Definition stores_x (k : call) : bool :=
  match k with
  | Set_x_continuous _ | Convert_G _ _ => true
  | _ => false
  end.

(** The sizes a Control keeps: mean and covariance of the control size, and
    each continuous member either still default-constructed or of the control
    size. *)
Definition well_sized (c : t) : Prop :=
  Gaussian.well_sized (base c)
  /\ (x_ct c = [] \/ length (x_ct c) = size c)
  /\ (P_ct c = [] \/ size1 (P_ct c) = size c).

(** Calls that contain an assignment to [dt]. *)
Definition assigns_dt (k : call) : bool :=
  match k with
  | Convert _ | Convert_G _ _ | Assign_dt _ => true
  | _ => false
  end.
End Def.
Arguments t R : clear implicits.
Arguments call R : clear implicits.
End Control.

(** ** The map *)

Module MapAbstract.

(** A slice of the map's state: offset and length. *)
Definition slice : Type := (nat * nat)%type.
Definition offset (s : slice) : nat := fst s.
Definition len (s : slice) : nat := snd s.
Definition inside (s : slice) (i : nat) : bool :=
  (offset s <=? i) && (i <? offset s + len s).
Definition same (a b : slice) : bool :=
  (offset a =? offset b) && (len a =? len b).
Definition disjoint (a b : slice) : Prop :=
  offset a + len a <= offset b \/ offset b + len b <= offset a.

Section Def.
Context {R : Type} `{Scalar R}.

(** Modelled from the spec: rtslam/mapAbstract.hpp is not part of the
    sources.  Sections 2, 6 and 9: the map owns one mean vector and one
    symmetric covariance matrix; every tracked object holds an offset range
    into them, and the map enumerates the tracked objects' slices. *)
Record t : Type := mk { x : vec R; P : sym_mat R; objects : list slice }.

(** The mean of a slice, and writing it. *)
Definition get_slice (v : vec R) (s : slice) : vec R :=
  mk_vec (len s) (fun k => vat v (offset s + k)).
Definition set_slice (v : vec R) (s : slice) (w : vec R) : vec R :=
  mk_vec (length v) (fun i => if inside s i then vat w (i - offset s) else vat v i).

(** The block of rows [a] and columns [b], and writing it. *)
Definition block (p : mat R) (a b : slice) : mat R :=
  mk_mat (len a) (len b) (fun i j => at_ p (offset a + i) (offset b + j)).
Definition set_block (p : mat R) (a b : slice) (m : mat R) : mat R :=
  mk_mat (size1 p) (size2 p)
    (fun i j => if inside a i && inside b j
                then at_ m (i - offset a) (j - offset b)
                else at_ p i j).

(** Writing a cross block of the symmetric matrix: block (b, a) is the
    transpose of block (a, b) and follows it. *)
Definition set_cross (p : mat R) (a b : slice) (m : mat R) : mat R :=
  mk_mat (size1 p) (size2 p)
    (fun i j => if inside a i && inside b j
                then at_ m (i - offset a) (j - offset b)
                else if inside b i && inside a j
                then at_ m (j - offset a) (i - offset b)
                else at_ p i j).

(** A slice that fits a state of size [N]; a covariance of that size, with
    the robot's slice [r] and the other objects' slices [os] inside it, no
    two slices sharing an index. *)
Definition fits (N : nat) (s : slice) : Prop := offset s + len s <= N.
Definition square (N : nat) (p : mat R) : Prop := size1 p = N /\ size2 p = N.
Definition laid_out (N : nat) (p : mat R) (r : slice) (os : list slice) : Prop :=
  square N p
  /\ fits N r
  /\ Forall (fun o => disjoint r o /\ fits N o) os
  /\ ForallOrdPairs disjoint os.

(** Modelled from the spec: the covariance propagation of section 4.2,
    step 4, on the shared matrix.  The robot's own block becomes
    F . P_rr . F^t + Q; then, object by object, the cross block P_ro becomes
    F . P_ro; nothing else is written. *)
Definition predict (p : sym_mat R) (r : slice) (others : list slice)
    (F : mat R) (Q : sym_mat R) : sym_mat R :=
  let p1 := set_block p r r (madd (prod_t (prod F (block p r r)) F) Q) in
  fold_left (fun acc o => set_cross acc r o (prod F (block acc r o))) others p1.
End Def.
Arguments t R : clear implicits.
End MapAbstract.

(** ** RobotAbstract *)

Module RobotAbstract.
Import MapAbstract.

(** Writing entry [i] of a list; nothing is written out of range. *)
Fixpoint upd {A : Type} (l : list A) (i : nat) (a : A) : list A :=
  match l, i with
  | [], _ => []
  | _ :: t, O => a :: t
  | h :: t, S k => h :: upd t k a
  end.

Section Def.
Context {R : Type} `{Scalar R}.

(** What a call of the virtual [move_func] can reach: the vectors it was
    given by reference, each a cell named by its position, and the two
    Jacobian members.  Two reference parameters bound to the same cell are
    the same object. *)
Definition ref : Type := nat.
Record frame : Type := mk_frame {
  cells : list (vec R);
  J_x : mat R;
  J_u : mat R
}.
Definition load (fr : frame) (v : ref) (k : nat) : R := vat (nth v (cells fr) []) k.
Definition store (v : ref) (k : nat) (e : R) (fr : frame) : frame :=
  mk_frame (upd (cells fr) v (upd (nth v (cells fr) []) k e)) (J_x fr) (J_u fr).
Definition with_J (jx ju : mat R) (fr : frame) : frame := mk_frame (cells fr) jx ju.

(** Modelled from the spec: the overrides of
    [virtual void move_func(const vec & _x, const vec & _u, const double _dt,
    vec & _xnew, mat & _XNEW_x, mat & _XNEW_u) = 0] live in the derived
    classes, outside the sources.  Sections 4.2 and 9: the motion model
    produces the new pose mean and the two Jacobians from the pose mean, the
    control mean and the elapsed time; so an override is taken to read and
    write through its parameters only -- the references to _x, _u and _xnew,
    the time interval, and the two Jacobians -- and no other member of the
    robot. *)
Definition motion_model : Type := ref -> ref -> R -> ref -> M frame unit.

(** The members of RobotAbstract the motion protocol uses.  [state] is the
    Gaussian of the parent MapObject, a view of the map's slice (what the
    spec calls the pose slice); [slamMap] is the map the robot is linked to. *)
Record t : Type := mk {
  constantPerturbation : bool;
  slamMap : MapAbstract.t R;
  state : slice;
  control : Control.t R;
  XNEW_x : mat R;
  XNEW_control : mat R;
  Q : sym_mat R
}.

Definition with_control (c : Control.t R) (r : t) : t :=
  mk (constantPerturbation r) (slamMap r) (state r) c (XNEW_x r) (XNEW_control r) (Q r).
Definition with_jacobians (jx ju : mat R) (r : t) : t :=
  mk (constantPerturbation r) (slamMap r) (state r) (control r) jx ju (Q r).
Definition with_Q (q : sym_mat R) (r : t) : t :=
  mk (constantPerturbation r) (slamMap r) (state r) (control r) (XNEW_x r) (XNEW_control r) q.
Definition with_slamMap (m : MapAbstract.t R) (r : t) : t :=
  mk (constantPerturbation r) m (state r) (control r) (XNEW_x r) (XNEW_control r) (Q r).

(** [state.x()]. *)
Definition state_x (r : t) : vec R := get_slice (MapAbstract.x (slamMap r)) (state r).

Section Protocol.
(** The motion model of the derived class. *)
Variable move_func : motion_model.

(** A call of [move_func] with the given local vectors and references;
    XNEW_x and XNEW_control are passed by reference, so what the call
    wrote to them stays, also when it throws.  Returns the locals as the
    call left them. *)
Definition call_move_func (locals : list (vec R)) (_x _u : ref) (_dt : R)
    (_xnew : ref) : M t (list (vec R)) :=
  fun r =>
    match move_func _x _u _dt _xnew
            (mk_frame locals (XNEW_x r) (XNEW_control r)) with
    | Done _ fr => Done (cells fr) (with_jacobians (J_x fr) (J_u fr) r)
    | Throw e fr => Throw e (with_jacobians (J_x fr) (J_u fr) r)
    end.

(** The inline [move_func()]:
    [vec x = state.x(); vec u = control.x();
     move_func(x, u, control.dt, x, XNEW_x, XNEW_control);]
    The local [x] is cell 0 and [u] is cell 1; [x] is bound to both _x and
    _xnew.  The locals are returned for inspection; the C++ function
    returns nothing and they die with it. *)
Definition move_func_locals : M t (list (vec R)) :=
  r <- get ;;
  call_move_func [state_x r; Control.x (control r)] 0 1 (Control.dt (control r)) 0.



(** Modelled from the spec: [computeStatePerturbation()] is declared in
    the header and defined outside the sources.  Section 4.2:
    Q := XNEW_control . control.covariance . XNEW_control^t; the member Q
    is a [jblas::sym_mat] (section 3: a symmetric matrix), so it holds the
    product as a symmetric matrix does. *)
Definition computeStatePerturbation : M t unit :=
  r <- get ;;
  put (with_Q (as_sym_mat (prod_t (prod (XNEW_control r) (Control.P (control r)))
                                  (XNEW_control r))) r).

(** The tracked objects other than the robot. *)
Definition others (r : t) : list slice :=
  filter (fun o => negb (same o (state r))) (objects (slamMap r)).

(** Modelled from the spec: [move()] is declared in the header and defined
    outside the sources.  Section 4.2, steps 1 to 4: evaluate the motion
    model (through the inline [move_func()], the new mean being what it
    left in its local x); refresh Q unless constantPerturbation; commit
    the mean; propagate the covariance.  It fails only if the motion model
    fails. *)
Definition move : M t unit :=
  locals <- move_func_locals ;;
  r1 <- get ;;
  (if constantPerturbation r1 then ret tt else computeStatePerturbation) ;;
  r2 <- get ;;
  let m := slamMap r2 in
  put (with_slamMap
         (MapAbstract.mk
            (set_slice (MapAbstract.x m) (state r2) (nth 0 locals []))
            (predict (MapAbstract.P m) (state r2) (others r2) (XNEW_x r2) (Q r2))
            (objects m))
         r2).

(** [set_control]: the assignment [control = _control]. *)
Definition set_control (_control : Control.t R) : M t unit :=
  r <- get ;; put (with_control _control r).

(** [move(const Control & _control)]. *)
Definition move_control (_control : Control.t R) : M t unit :=
  set_control _control ;; move.

(** [template<class V> move(V & _u)]. *)
Definition move_u (_u : vec R) : M t unit :=
  r <- get ;;
  JFR_ASSERT (length _u =? Control.size (control r))
    (SizeMismatch "robotAbstract.hpp: move: wrong control size.") ;;
  within control with_control (Control.set_x _u) ;;
  move.

(** What a client does with a robot between and around the steps. *)
Inductive action : Type :=
| Move
| Move_control (_control : Control.t R)
| Move_u (_u : vec R)
| On_control (k : Control.call R).

Definition act (a : action) : M t unit :=
  match a with
  | Move => move
  | Move_control c => move_control c
  | Move_u u => move_u u
  | On_control k => within control with_control (Control.perform k)
  end.

(** The robot after a run of actions, thrown exceptions caught. *)
Definition run (acts : list action) (r : t) : t :=
  fold_left (fun r a => final (act a r)) acts r.
End Protocol.
End Def.
Arguments t R : clear implicits.
Arguments frame R : clear implicits.
Arguments motion_model R : clear implicits.
Arguments action R : clear implicits.
End RobotAbstract.

(** ** Integer scalars, for concrete runs *)

#[export] Instance Z_scalar : Scalar Z :=
  {| s_zero := 0%Z; s_one := 1%Z; s_add := Z.add; s_mul := Z.mul |}.

(** The data-model invariant of a covariance (section 3): symmetric of its
    size, with a quadratic form that is nowhere negative. *)
Definition nonnegative_form (n : nat) (p : mat Z) : Prop :=
  forall v : vec Z, length v = n -> (0 <= quad p v)%Z.
Definition positive_semidefinite (n : nat) (p : sym_mat Z) : Prop :=
  has_shape n n p /\ symmetric p /\ nonnegative_form n p.

(** A derived class over the integers.  The state is (position, speed), the
    control an acceleration; the override writes the new speed first and the
    new position second, reading the current state through [_x] as it goes:
    [_xnew(1) = _x(1) + _u(0) * _dt; _xnew(0) = _x(0) + _x(1) * _dt;]
    then fills the two Jacobians. *)
Module Example.
Import RobotAbstract.
Open Scope Z_scope.

Definition speed_then_position : motion_model Z :=
  fun _x _u _dt _xnew =>
    fr <- get ;; put (store _xnew 1 (load fr _x 1 + load fr _u 0 * _dt) fr) ;;
    fr <- get ;; put (store _xnew 0 (load fr _x 0 + load fr _x 1 * _dt) fr) ;;
    fr <- get ;; put (with_J [[1; _dt]; [0; 1]] [[0]; [_dt]] fr).


(** A map of three states: the robot at 0 and 1, a landmark at 2. *)
Definition map0 : MapAbstract.t Z :=
  MapAbstract.mk [0; 3; 7] [[2; 1; 1]; [1; 2; 1]; [1; 1; 3]] [(0, 2); (2, 1)]%nat.

Definition control0 : Control.t Z :=
  Control.of_Gaussian_dt (Gaussian.mk 1 [1] [[1]]) 2.

Definition robot0 : RobotAbstract.t Z :=
  RobotAbstract.mk false map0 (0, 2)%nat control0
    (zero_mat 2 2) (zero_mat 2 1) (zero_mat 2 2).

(** A Control of size 2 with continuous mean and covariance stored. *)
Definition stored : Control.t Z :=
  Control.mk (Gaussian.mk 2 [0; 0] [[0; 0]; [0; 0]]) [3; 4] [[2; 1]; [1; 2]] 1.

(** The same robot with a perturbation entered by hand and declared
    constant. *)
Definition robot1 : RobotAbstract.t Z :=
  RobotAbstract.mk true map0 (0, 2)%nat control0
    (zero_mat 2 2) (zero_mat 2 1) [[4; 0]; [0; 4]].
End Example.

(** * Properties *)

(** ** Lists of rows *)

Section JblasFacts.
Context {R : Type} `{Scalar R}.

Lemma nth_map_seq {A : Type} (g : nat -> A) n i d :
  i < n -> nth i (map g (seq 0 n)) d = g i.
Proof.
  intros Hi. rewrite (nth_indep _ d (g 0)) by now rewrite length_map, length_seq.
  rewrite map_nth, seq_nth by assumption. reflexivity.
Qed.

Lemma length_mk_vec n (f : nat -> R) : length (mk_vec n f) = n.
Proof. unfold mk_vec. now rewrite length_map, length_seq. Qed.

Lemma vat_mk_vec n (f : nat -> R) i : i < n -> vat (mk_vec n f) i = f i.
Proof. intros Hi. unfold vat, mk_vec. now apply nth_map_seq. Qed.

Lemma size1_mk_mat n m (f : nat -> nat -> R) : size1 (mk_mat n m f) = n.
Proof. unfold size1, mk_mat. now rewrite length_map, length_seq. Qed.

Lemma nth_mk_mat n m (f : nat -> nat -> R) i :
  i < n -> nth i (mk_mat n m f) [] = mk_vec m (f i).
Proof. intros Hi. unfold mk_mat. now rewrite nth_map_seq. Qed.

Lemma at_mk_mat n m (f : nat -> nat -> R) i j :
  i < n -> j < m -> at_ (mk_mat n m f) i j = f i j.
Proof.
  intros Hi Hj. unfold at_. rewrite nth_mk_mat by assumption.
  now apply vat_mk_vec.
Qed.

Lemma size2_mk_mat n m (f : nat -> nat -> R) : 0 < n -> size2 (mk_mat n m f) = m.
Proof.
  intros Hn. unfold size2. destruct n; [lia|].
  cbn. now rewrite length_map, length_seq.
Qed.

Lemma has_shape_mk_mat n m (f : nat -> nat -> R) : has_shape n m (mk_mat n m f).
Proof.
  split; [apply size1_mk_mat|].
  unfold rows_of, mk_mat. apply Forall_map, Forall_forall. intros i _.
  now rewrite length_map, length_seq.
Qed.


Lemma mk_mat_ext n m (f g : nat -> nat -> R) :
  (forall i j, i < n -> j < m -> f i j = g i j) -> mk_mat n m f = mk_mat n m g.
Proof.
  intros E. unfold mk_mat. apply map_ext_in. intros i Hi. apply in_seq in Hi.
  apply map_ext_in. intros j Hj. apply in_seq in Hj. apply E; lia.
Qed.

(** A list is the table of its entries. *)
Lemma vec_as_mk_vec (v : vec R) : v = mk_vec (length v) (vat v).
Proof.
  apply (nth_ext _ _ s_zero s_zero).
  - now rewrite length_mk_vec.
  - intros i Hi. fold (vat v i). fold (vat (mk_vec (length v) (vat v)) i).
    now rewrite vat_mk_vec.
Qed.

Lemma mat_as_mk_mat n m (a : mat R) : has_shape n m a -> a = mk_mat n m (at_ a).
Proof.
  intros [Hn Hm]. apply (nth_ext _ _ [] []).
  - pose proof (size1_mk_mat n m (at_ a)) as E. unfold size1 in E. congruence.
  - intros i Hi. rewrite nth_mk_mat by lia.
    assert (Hr : length (nth i a []) = m).
    { unfold rows_of in Hm. rewrite Forall_forall in Hm. apply Hm. now apply nth_In. }
    rewrite (vec_as_mk_vec (nth i a [])), Hr. reflexivity.
Qed.

Lemma size1_mscale (m : mat R) s : size1 (mscale m s) = size1 m.
Proof. unfold size1, mscale. apply length_map. Qed.

Lemma length_vscale (v : vec R) s : length (vscale v s) = length v.
Proof. unfold vscale. apply length_map. Qed.

(** Entry by entry: [(m * s)(i, j) = m(i, j) * s] on the stored entries. *)
Lemma at_mscale (m : mat R) s i j :
  i < size1 m -> j < length (nth i m []) ->
  at_ (mscale m s) i j = (at_ m i j * s)%sc.
Proof.
  intros Hi Hj. unfold at_, mscale.
  rewrite (nth_indep _ [] (vscale [] s)) by now rewrite length_map.
  rewrite (map_nth (fun r => vscale r s) m [] i).
  unfold vscale.
  rewrite (nth_indep _ s_zero ((s_zero * s)%sc)) by now rewrite length_map.
  now rewrite (map_nth (fun e => (e * s)%sc) (nth i m []) s_zero j).
Qed.
End JblasFacts.

(** ** Control *)

(** Unfolds a member function down to its tests. *)
Ltac unfold_member :=
  unfold Control.perform, Control.convert_from_continuous_G,
    Control.convert_from_continuous, Control.convert_P_from_continuous_P,
    Control.convert_P_from_continuous, Control.set_x_continuous,
    Control.set_P_continuous, Control.set_P, Control.set_x, within,
    Gaussian.set_P, Gaussian.set_x, bind, get, put, ret, JFR_ASSERT;
  cbn [Control.base Control.x_ct Control.P_ct Control.dt Control.size Control.x
       Control.P Control.with_base Control.with_x_ct Control.with_P_ct
       Control.with_dt Gaussian.size Gaussian.x Gaussian.P final returned].

(** Splits on the outcome of every size test in the goal. *)
Ltac split_tests :=
  repeat match goal with
         | |- context [if ?a =? ?b then _ else _] =>
             let E := fresh "E" in
             destruct (Nat.eqb_spec a b) as [E|E];
             cbn [Control.base Control.x_ct Control.P_ct Control.dt Control.size
                  Control.x Control.P Control.with_base Control.with_x_ct
                  Control.with_P_ct Control.with_dt Gaussian.size Gaussian.x
                  Gaussian.P final returned] in *
         end.

Section ControlFacts.
Context {R : Type} `{Scalar R}.
Implicit Types (c : Control.t R) (k : Control.call R).

Lemma convert_P_returns c _dt :
  size1 (Control.P_ct c) = Control.size c ->
  Control.convert_P_from_continuous _dt c = Done tt (Control.with_P (mscale (Control.P_ct c) _dt) c).
Proof.
  intros E. unfold_member. unfold Control.size in *.
  rewrite size1_mscale, !E, !Nat.eqb_refl. reflexivity.
Qed.

Lemma convert_P_throws c _dt :
  size1 (Control.P_ct c) <> Control.size c ->
  Control.convert_P_from_continuous _dt c =
  Throw (UninitializedContinuousState
           "Continuous-time covariance not yet initialized.") c.
Proof.
  intros E. unfold_member. unfold Control.size in *.
  apply Nat.eqb_neq in E. now rewrite E.
Qed.

Lemma set_P_continuous_returns c m c' :
  Control.set_P_continuous m c = Done tt c' ->
  c' = Control.with_P_ct m c /\ size1 m = Control.size c.
Proof.
  unfold_member. unfold Control.size. split_tests; [|discriminate].
  intros [= <-]. now split.
Qed.

(** No call changes the size of the Control. *)
Lemma perform_size k c : Control.size (final (Control.perform k c)) = Control.size c.
Proof.
  destruct k; unfold_member; unfold Control.size; split_tests;
    cbn; try reflexivity; try congruence.
Qed.

(** Only the storing calls write the continuous members. *)
Lemma perform_P_ct k c :
  Control.stores_P k = false ->
  Control.P_ct (final (Control.perform k c)) = Control.P_ct c.
Proof.
  destruct k; cbn [Control.stores_P]; try discriminate; intros _;
    unfold_member; unfold Control.size; split_tests; reflexivity.
Qed.

Lemma perform_x_ct k c :
  Control.stores_x k = false ->
  Control.x_ct (final (Control.perform k c)) = Control.x_ct c.
Proof.
  destruct k; cbn [Control.stores_x]; try discriminate; intros _;
    unfold_member; unfold Control.size; split_tests; reflexivity.
Qed.

(** Only [convert_from_continuous] and a plain assignment write [dt]. *)
Lemma perform_dt k c :
  Control.assigns_dt k = false ->
  Control.dt (final (Control.perform k c)) = Control.dt c.
Proof.
  destruct k; cbn [Control.assigns_dt]; try discriminate; intros _;
    unfold_member; unfold Control.size; split_tests; reflexivity.
Qed.

Lemma after_cons k ks c :
  Control.after (k :: ks) c = Control.after ks (final (Control.perform k c)).
Proof. reflexivity. Qed.

Lemma after_size ks c : Control.size (Control.after ks c) = Control.size c.
Proof.
  revert c. induction ks as [|k ks IH]; intros c; [reflexivity|].
  rewrite after_cons, IH. apply perform_size.
Qed.

Lemma after_P_ct ks c :
  forallb (fun k => negb (Control.stores_P k)) ks = true ->
  Control.P_ct (Control.after ks c) = Control.P_ct c.
Proof.
  revert c. induction ks as [|k ks IH]; intros c Hks; [reflexivity|].
  cbn in Hks. apply andb_true_iff in Hks as [Hk Hks].
  rewrite after_cons, IH by assumption. apply perform_P_ct.
  now apply negb_true_iff.
Qed.

Lemma after_x_ct ks c :
  forallb (fun k => negb (Control.stores_x k)) ks = true ->
  Control.x_ct (Control.after ks c) = Control.x_ct c.
Proof.
  revert c. induction ks as [|k ks IH]; intros c Hks; [reflexivity|].
  cbn in Hks. apply andb_true_iff in Hks as [Hk Hks].
  rewrite after_cons, IH by assumption. apply perform_x_ct.
  now apply negb_true_iff.
Qed.
End ControlFacts.

(** ** Claims about Control *)

Section ControlClaims.
Context {R : Type} `{Scalar R}.

(** C5 (amended).  [convert_P_from_continuous(_dt)] on a Control to which no
    continuous covariance was handed since its construction: it throws
    UninitializedContinuousState, leaving the Control as it was, when the
    control size is not 0; when the size is 0 the default 0 x 0 [P_ct]
    passes the test and the call returns with the empty covariance.  Once a
    continuous covariance [m] was stored, for every [_dt] the call returns
    and the covariance is exactly [m * _dt], entry by entry, the other
    members being kept. *)
Theorem convert_P_from_continuous_checks_the_size
    (c0 : Control.t R) (ks : list (Control.call R)) (_dt : R) :
  let c := Control.after ks c0 in
  let never_stored :=
    Control.P_ct c0 = [] /\
    forallb (fun k => negb (Control.stores_P k)) ks = true in
  (never_stored -> Control.size c0 <> 0 ->
   Control.convert_P_from_continuous _dt c =
   Throw (UninitializedContinuousState
            "Continuous-time covariance not yet initialized.") c)
  /\ (never_stored -> Control.size c0 = 0 ->
      Control.convert_P_from_continuous _dt c = Done tt (Control.with_P [] c))
  /\ (forall m c1 ks',
        Control.set_P_continuous m c = Done tt c1 ->
        forallb (fun k => negb (Control.stores_P k)) ks' = true ->
        let c2 := Control.after ks' c1 in
        Control.convert_P_from_continuous _dt c2 =
        Done tt (Control.with_P (mscale m _dt) c2)).
Proof.
  intros c never_stored. repeat split.
  - intros [E0 Hks] Hsz. apply convert_P_throws.
    unfold c. rewrite after_P_ct, after_size, E0 by assumption. cbn. congruence.
  - intros [E0 Hks] Hsz.
    assert (E : Control.P_ct c = []) by (unfold c; now rewrite after_P_ct).
    rewrite convert_P_returns.
    + now rewrite E.
    + rewrite E. unfold c. now rewrite after_size, Hsz.
  - intros m c1 ks' Hset Hks' c2.
    apply set_P_continuous_returns in Hset as [-> Hm].
    assert (E : Control.P_ct c2 = m) by (unfold c2; now rewrite after_P_ct).
    rewrite convert_P_returns.
    + now rewrite E.
    + rewrite E. unfold c2. now rewrite after_size.
Qed.

(** [convert_from_continuous(_dt)] by the sizes of the continuous members. *)
Lemma convert_from_continuous_cases (c : Control.t R) (_dt : R) :
  (length (Control.x_ct c) <> Control.size c ->
   Control.convert_from_continuous _dt c =
   Throw (UninitializedContinuousState
            "Continuous-time values not yet initialized.") c)
  /\ (length (Control.x_ct c) = Control.size c ->
      size1 (Control.P_ct c) = Control.size c ->
      Control.convert_from_continuous _dt c =
      Done tt
        (Control.with_dt _dt
           (Control.with_P (mscale (Control.P_ct c) _dt)
              (Control.with_x (vscale (Control.x_ct c) _dt) c)))).
Proof.
  split.
  - intros E. unfold_member. unfold Control.size in *.
    apply Nat.eqb_neq in E. now rewrite E.
  - intros Ex EP. unfold_member. unfold Control.size in *.
    rewrite length_vscale, size1_mscale, !Ex, !EP, !Nat.eqb_refl. reflexivity.
Qed.

(** C3 (amended).  [convert_from_continuous(_dt)] on a Control to which no
    continuous mean was handed since its construction throws
    UninitializedContinuousState and leaves the Control as it was, when the
    control size is not 0; on a Control of size 0 to which nothing was handed
    the default members pass the tests and the call returns.  Once a
    continuous covariance [m] and a continuous mean [v] were stored, for every
    [_dt] the call returns with mean [v * _dt], covariance [m * _dt] and
    dt [_dt]. *)
Theorem convert_from_continuous_checks_x_ct
    (c0 : Control.t R) (ks : list (Control.call R)) (_dt : R) :
  let c := Control.after ks c0 in
  let no_mean :=
    Control.x_ct c0 = [] /\
    forallb (fun k => negb (Control.stores_x k)) ks = true in
  let no_covariance :=
    Control.P_ct c0 = [] /\
    forallb (fun k => negb (Control.stores_P k)) ks = true in
  (no_mean -> Control.size c0 <> 0 ->
   Control.convert_from_continuous _dt c =
   Throw (UninitializedContinuousState
            "Continuous-time values not yet initialized.") c)
  /\ (no_mean -> no_covariance -> Control.size c0 = 0 ->
      Control.convert_from_continuous _dt c =
      Done tt (Control.with_dt _dt (Control.with_P [] (Control.with_x [] c))))
  /\ (forall m v c1 c2 ks',
        Control.set_P_continuous m c = Done tt c1 ->
        Control.set_x_continuous v c1 = Done tt c2 ->
        forallb (fun k => negb (Control.stores_P k)) ks' = true ->
        forallb (fun k => negb (Control.stores_x k)) ks' = true ->
        let c3 := Control.after ks' c2 in
        Control.convert_from_continuous _dt c3 =
        Done tt
          (Control.with_dt _dt
             (Control.with_P (mscale m _dt) (Control.with_x (vscale v _dt) c3)))).
Proof.
  intros c no_mean no_covariance. repeat split.
  - intros [E0 Hks] Hsz. apply convert_from_continuous_cases.
    unfold c. rewrite after_x_ct, after_size, E0 by assumption. cbn. congruence.
  - intros [Ex Hx] [EP HP] Hsz.
    assert (Ex' : Control.x_ct c = []) by (unfold c; now rewrite after_x_ct).
    assert (EP' : Control.P_ct c = []) by (unfold c; now rewrite after_P_ct).
    assert (Es : Control.size c = 0) by (unfold c; now rewrite after_size).
    destruct (convert_from_continuous_cases c _dt) as [_ ->].
    + now rewrite Ex', EP'.
    + now rewrite Ex', Es.
    + now rewrite EP', Es.
  - intros m v c1 c2 ks' HP Hx HksP Hksx c3.
    apply set_P_continuous_returns in HP as [-> Hm].
    assert (Hv : c2 = Control.with_x_ct v (Control.with_P_ct m c)
                 /\ length v = Control.size c).
    { revert Hx. unfold_member. unfold Control.size. split_tests; [|discriminate].
      intros [= <-]. now split. }
    destruct Hv as [-> Hv].
    assert (Ex : Control.x_ct c3 = v) by (unfold c3; now rewrite after_x_ct).
    assert (EP : Control.P_ct c3 = m) by (unfold c3; now rewrite after_P_ct).
    assert (Es : Control.size c3 = Control.size c) by (unfold c3; now rewrite after_size).
    destruct (convert_from_continuous_cases c3 _dt) as [_ ->].
    + now rewrite Ex, EP.
    + now rewrite Ex, Es.
    + now rewrite EP, Es.
Qed.

(** X2.  [convert_P_from_continuous(_P_ct, _dt)] throws SizeMismatch and
    changes nothing when [_P_ct] has not the size of the Control; otherwise
    it stores [_P_ct] and leaves the covariance [_P_ct * _dt]. *)
Theorem convert_P_from_continuous_P_stores_then_discretizes
    (c : Control.t R) (m : sym_mat R) (_dt : R) :
  Control.convert_P_from_continuous_P m _dt c =
    (if size1 m =? Control.size c
     then Done tt (Control.with_P (mscale m _dt) (Control.with_P_ct m c))
     else Throw (SizeMismatch "Matrix sizes mismatch.") c).
Proof.
  unfold_member. unfold Control.size.
  destruct (size1 m =? Gaussian.size (Control.base c)) eqn:E; [|reflexivity].
  cbn -[size1 mscale Nat.eqb]. rewrite E.
  cbn -[size1 mscale Nat.eqb]. rewrite size1_mscale, E. reflexivity.
Qed.
End ControlClaims.

(** ** The motion protocol *)

Section RobotFacts.
Context {R : Type} `{Scalar R}.
Variable move_func : RobotAbstract.motion_model R.
Implicit Types (r : RobotAbstract.t R) (c : Control.t R).

Import RobotAbstract.

Lemma within_final {S T A} (prj : S -> T) (upd : T -> S -> S) (m : M T A) s :
  exists t', final (within prj upd m s) = upd t' s.
Proof. unfold within. destruct (m (prj s)); cbn; eauto. Qed.

(** What a call of the motion model leaves of the robot: everything but the
    two Jacobians. *)
Lemma call_move_func_final locals _x _u _dt _xnew r :
  exists jx ju,
    final (call_move_func move_func locals _x _u _dt _xnew r) = with_jacobians jx ju r.
Proof.
  unfold call_move_func.
  destruct (move_func _ _ _ _ _) as [[] fr|e fr]; cbn; eauto.
Qed.

(** [move()], unfolded on the outcome of the motion model. *)
Lemma move_unfold r :
  move move_func r =
  match move_func_locals move_func r with
  | Done locals r1 =>
      let r2 := if constantPerturbation r1 then r1
                else final (computeStatePerturbation r1) in
      let m := slamMap r2 in
      Done tt
        (with_slamMap
           (MapAbstract.mk
              (MapAbstract.set_slice (MapAbstract.x m) (state r2) (nth 0 locals []))
              (MapAbstract.predict (MapAbstract.P m) (state r2) (others r2)
                 (XNEW_x r2) (Q r2))
              (MapAbstract.objects m))
           r2)
  | Throw e r1 => Throw e r1
  end.
Proof.
  unfold move, bind at 1.
  destruct (move_func_locals move_func r) as [locals r1|e r1]; [|reflexivity].
  unfold bind, get. destruct (constantPerturbation r1); reflexivity.
Qed.

Lemma move_func_locals_final r :
  exists jx ju, final (move_func_locals move_func r) = with_jacobians jx ju r.
Proof. unfold move_func_locals, bind, get. apply call_move_func_final. Qed.

(** A step that returns: what became of each member. *)
Lemma move_returns r r' :
  move move_func r = Done tt r' ->
  constantPerturbation r' = constantPerturbation r
  /\ state r' = state r
  /\ control r' = control r
  /\ MapAbstract.objects (slamMap r') = MapAbstract.objects (slamMap r)
  /\ MapAbstract.P (slamMap r') =
     MapAbstract.predict (MapAbstract.P (slamMap r)) (state r) (others r)
       (XNEW_x r') (Q r')
  /\ Q r' = (if constantPerturbation r then Q r
             else as_sym_mat
                    (prod_t (prod (XNEW_control r') (Control.P (control r')))
                       (XNEW_control r'))).
Proof.
  rewrite move_unfold.
  destruct (move_func_locals_final r) as (jx & ju & E).
  destruct (move_func_locals move_func r) as [locals r1|e r1]; [|discriminate].
  cbn in E. subst r1. cbv zeta. intros [= <-].
  destruct (constantPerturbation r) eqn:Ec; cbn; rewrite ?Ec; cbn;
    repeat split; reflexivity.
Qed.

(** With the flag set no step writes Q, returned or thrown. *)
Lemma move_constant_Q r :
  constantPerturbation r = true ->
  Q (final (move move_func r)) = Q r
  /\ constantPerturbation (final (move move_func r)) = true.
Proof.
  intros Ec. rewrite move_unfold.
  destruct (move_func_locals_final r) as (jx & ju & E).
  destruct (move_func_locals move_func r) as [locals r1|e r1];
    cbn in E; subst r1; cbn; rewrite ?Ec; cbn; auto.
Qed.

Lemma act_constant_Q a r :
  constantPerturbation r = true ->
  Q (final (act move_func a r)) = Q r
  /\ constantPerturbation (final (act move_func a r)) = true.
Proof.
  intros Ec. destruct a as [|c|u|k]; cbn [act].
  - now apply move_constant_Q.
  - unfold move_control, set_control, bind, get, put.
    now apply (move_constant_Q (with_control c r)).
  - unfold move_u, bind, get, JFR_ASSERT.
    destruct (length u =? Control.size (control r)); [|now cbn].
    destruct (within_final control with_control (Control.set_x u) r) as [c' E].
    destruct (within control with_control (Control.set_x u) r) as [[] r1|e r1];
      cbn in E; subst r1; [|now cbn].
    now apply (move_constant_Q (with_control c' r)).
  - destruct (within_final control with_control (Control.perform k) r) as [c' E].
    rewrite E. now cbn.
Qed.

Lemma run_constant_Q acts r :
  constantPerturbation r = true ->
  Q (run move_func acts r) = Q r
  /\ constantPerturbation (run move_func acts r) = true.
Proof.
  revert r. induction acts as [|a acts IH]; intros r Ec; [now split|].
  change (run move_func (a :: acts) r)
    with (run move_func acts (final (act move_func a r))).
  destruct (act_constant_Q a r Ec) as [Eq Ec'].
  destruct (IH _ Ec') as [Eq' Ec'']. split; congruence.
Qed.
End RobotFacts.

(** ** Blocks of the shared covariance *)

Section MapFacts.
Context {R : Type} `{Scalar R}.
Import MapAbstract.
Implicit Types (p acc : mat R) (a b o rs : slice).

Lemma inside_spec a i :
  reflect (offset a <= i < offset a + len a) (inside a i).
Proof.
  apply iff_reflect. unfold inside.
  rewrite andb_true_iff, Nat.leb_le, Nat.ltb_lt. tauto.
Qed.

Lemma inside_at a k : k < len a -> inside a (offset a + k) = true.
Proof. intros Hk. destruct (inside_spec a (offset a + k)); [reflexivity|lia]. Qed.

Lemma outside_of_disjoint a b k :
  disjoint a b -> k < len b -> inside a (offset b + k) = false.
Proof.
  unfold disjoint. intros D Hk.
  destruct (inside_spec a (offset b + k)); [lia|reflexivity].
Qed.

Lemma size2_mk_mat_square N (f : nat -> nat -> R) : size2 (mk_mat N N f) = N.
Proof. destruct N; [reflexivity|]. apply size2_mk_mat. lia. Qed.

Lemma square_set_block N p a b m : square N p -> square N (set_block p a b m).
Proof.
  intros [E1 E2]. unfold set_block. rewrite E1, E2. split.
  - apply size1_mk_mat.
  - apply size2_mk_mat_square.
Qed.

Lemma square_set_cross N p a b m : square N p -> square N (set_cross p a b m).
Proof.
  intros [E1 E2]. unfold set_cross. rewrite E1, E2. split.
  - apply size1_mk_mat.
  - apply size2_mk_mat_square.
Qed.

Lemma at_set_block N p a b m i j :
  square N p -> i < N -> j < N ->
  at_ (set_block p a b m) i j =
  if inside a i && inside b j then at_ m (i - offset a) (j - offset b)
  else at_ p i j.
Proof.
  intros [E1 E2] Hi Hj. unfold set_block. rewrite E1, E2.
  now rewrite at_mk_mat.
Qed.

Lemma at_set_cross N p a b m i j :
  square N p -> i < N -> j < N ->
  at_ (set_cross p a b m) i j =
  if inside a i && inside b j then at_ m (i - offset a) (j - offset b)
  else if inside b i && inside a j then at_ m (j - offset a) (i - offset b)
  else at_ p i j.
Proof.
  intros [E1 E2] Hi Hj. unfold set_cross. rewrite E1, E2.
  now rewrite at_mk_mat.
Qed.

Lemma block_ext p q a b :
  (forall i j, i < len a -> j < len b ->
     at_ p (offset a + i) (offset b + j) = at_ q (offset a + i) (offset b + j)) ->
  block p a b = block q a b.
Proof. intros E. unfold block. now apply mk_mat_ext. Qed.

(** Reading back a block that was written whole. *)
Lemma mk_mat_at n m (g : nat -> nat -> R) :
  mk_mat n m (at_ (mk_mat n m g)) = mk_mat n m g.
Proof. symmetry. apply mat_as_mk_mat, has_shape_mk_mat. Qed.

Section Propagation.
Variables (N : nat) (rs : slice) (F : mat R).
Hypothesis rs_fits : fits N rs.
Hypothesis F_rows : size1 F = len rs.

Let step acc o := set_cross acc rs o (prod F (block acc rs o)).

Lemma square_fold os acc : square N acc -> square N (fold_left step os acc).
Proof.
  revert acc. induction os as [|o os IH]; intros acc Sq; [assumption|].
  cbn [fold_left]. apply IH. now apply square_set_cross.
Qed.

(** The cross updates write only rows of the robot against columns of the
    listed objects, and the mirrored entries. *)
Lemma at_fold_elsewhere os acc i j :
  square N acc -> i < N -> j < N ->
  (forall o, In o os ->
     inside rs i && inside o j = false /\ inside o i && inside rs j = false) ->
  at_ (fold_left step os acc) i j = at_ acc i j.
Proof.
  revert acc. induction os as [|o os IH]; intros acc Sq Hi Hj Out; [reflexivity|].
  cbn [fold_left]. rewrite IH; try assumption.
  - unfold step. rewrite (at_set_cross _ _ _ Sq Hi Hj).
    destruct (Out o (or_introl eq_refl)) as [-> ->]. reflexivity.
  - now apply square_set_cross.
  - intros o' Ho'. apply Out. now right.
Qed.

(** The product F . B for a block B of [len rs] rows, read back from
    where it was written. *)
Lemma cross_product_shape acc o :
  mk_mat (len rs) (len o) (at_ (prod F (block acc rs o))) =
  prod F (block acc rs o).
Proof.
  unfold prod at 2. unfold prod at 1. rewrite F_rows.
  destruct (len rs) as [|n] eqn:En; [reflexivity|].
  assert (E2 : size2 (block acc rs o) = len o).
  { unfold block. rewrite En. apply size2_mk_mat. lia. }
  rewrite E2. apply mk_mat_at.
Qed.

Lemma block_step_same acc o :
  square N acc -> fits N o -> disjoint rs o ->
  block (step acc o) rs o = prod F (block acc rs o).
Proof.
  intros Sq Fo D. rewrite <- cross_product_shape.
  unfold block at 1. apply mk_mat_ext. intros i j Hi Hj.
  unfold step. unfold fits in *.
  rewrite (at_set_cross _ _ _ Sq) by lia.
  rewrite !inside_at by assumption. cbn.
  f_equal; lia.
Qed.

Lemma block_step_other acc o o' :
  square N acc -> fits N o -> disjoint rs o' -> disjoint o' o ->
  block (step acc o') rs o = block acc rs o.
Proof.
  intros Sq Fo D D'. apply block_ext. intros i j Hi Hj.
  unfold step. unfold fits in *.
  rewrite (at_set_cross _ _ _ Sq) by lia.
  rewrite (outside_of_disjoint D' Hj), andb_false_r.
  assert (E : inside o' (offset rs + i) = false).
  { apply outside_of_disjoint; [|assumption].
    unfold disjoint in *. lia. }
  now rewrite E.
Qed.

Lemma block_fold_cross os acc o :
  square N acc ->
  Forall (fun o => disjoint rs o /\ fits N o) os ->
  ForallOrdPairs disjoint os ->
  In o os ->
  block (fold_left step os acc) rs o = prod F (block acc rs o).
Proof.
  revert acc. induction os as [|o1 os IH]; intros acc Sq Hos Hpair Hin;
    [contradiction|].
  inversion Hos as [|? ? [D1 F1] Hos']; subst.
  inversion Hpair as [|? ? Hd1 Hpair']; subst.
  cbn [fold_left]. destruct Hin as [<-|Hin].
  - rewrite <- (block_step_same Sq F1 D1).
    apply block_ext. intros i j Hi Hj.
    apply at_fold_elsewhere.
    + now apply square_set_cross.
    + unfold fits in *. lia.
    + unfold fits in *. lia.
    + intros o' Ho'. rewrite Forall_forall in Hd1, Hos'.
      assert (D : disjoint o1 o') by now apply Hd1.
      assert (E1 : inside o' (offset o1 + j) = false).
      { apply outside_of_disjoint; [|assumption]. unfold disjoint in *. lia. }
      assert (E2 : inside rs (offset o1 + j) = false).
      { now apply outside_of_disjoint. }
      now rewrite E1, E2, !andb_false_r.
  - rewrite IH; try assumption.
    + rewrite Forall_forall in Hd1, Hos'.
      destruct (Hos' _ Hin) as [_ Fo].
      now rewrite (block_step_other Sq Fo D1 (Hd1 _ Hin)).
    + now apply square_set_cross.
Qed.
End Propagation.
End MapFacts.

Section PredictFacts.
Context {R : Type} `{Scalar R}.
Import MapAbstract.
Variables (N : nat) (p : sym_mat R) (rs : slice) (os : list slice).
Variables (F : mat R) (Q : sym_mat R).
Hypothesis layout : laid_out N p rs os.
Hypothesis F_rows : size1 F = len rs.

Let own := madd (prod_t (prod F (block p rs rs)) F) Q.
Let p1 := set_block p rs rs own.

Lemma own_block_shape : mk_mat (len rs) (len rs) (at_ own) = own.
Proof.
  unfold own, madd, prod_t, prod.
  rewrite !size1_mk_mat, size2_mk_mat_square, F_rows. apply mk_mat_at.
Qed.

Lemma square_p1 : square N p1.
Proof. apply square_set_block, layout. Qed.

Lemma others_outside o k :
  In o os -> k < len rs -> inside o (offset rs + k) = false.
Proof.
  intros Ho Hk. destruct layout as (_ & _ & Hos & _).
  rewrite Forall_forall in Hos. destruct (Hos _ Ho) as [D _].
  apply outside_of_disjoint; [|assumption]. unfold disjoint in *. lia.
Qed.

(** The robot's own block after the propagation. *)
Lemma predict_own : block (predict p rs os F Q) rs rs = own.
Proof.
  destruct layout as (Sq & Fr & Hos & Hpair). unfold fits in Fr.
  unfold predict. cbv zeta. fold own. fold p1.
  transitivity (mk_mat (len rs) (len rs) (at_ own)); [|apply own_block_shape].
  unfold block at 1. apply mk_mat_ext. intros i j Hi Hj. cbv beta.
  rewrite at_fold_elsewhere with (N := N); try lia; try apply square_p1.
  - unfold p1. rewrite (at_set_block _ _ _ Sq) by lia.
    rewrite !inside_at by assumption. cbn. f_equal; lia.
  - intros o Ho. rewrite !(others_outside o) by assumption.
    now rewrite andb_false_r.
Qed.

(** The cross block of the robot with a listed object. *)
Lemma predict_cross o :
  In o os -> block (predict p rs os F Q) rs o = prod F (block p rs o).
Proof.
  intros Ho. destruct layout as (Sq & Fr & Hos & Hpair).
  unfold predict. cbv zeta. fold own. fold p1.
  rewrite block_fold_cross with (N := N); try assumption; try apply square_p1.
  f_equal. apply block_ext. intros i j Hi Hj.
  rewrite Forall_forall in Hos. destruct (Hos _ Ho) as [D Fo].
  unfold fits in *. unfold p1.
  rewrite (at_set_block _ _ _ Sq) by lia.
  now rewrite (outside_of_disjoint D Hj), andb_false_r.
Qed.

(** Entries off the robot's rows and columns. *)
Lemma predict_elsewhere i j :
  i < N -> j < N -> inside rs i = false -> inside rs j = false ->
  at_ (predict p rs os F Q) i j = at_ p i j.
Proof.
  intros Hi Hj Ei Ej. destruct layout as (Sq & Fr & Hos & Hpair).
  unfold predict. cbv zeta. fold own. fold p1.
  rewrite at_fold_elsewhere with (N := N); try assumption; try apply square_p1.
  - unfold p1. rewrite (at_set_block _ _ _ Sq Hi Hj). now rewrite Ei.
  - intros o _. now rewrite Ei, Ej, andb_false_r.
Qed.

(** Blocks between slices that leave the robot's slice alone. *)
Lemma predict_other_blocks a b :
  fits N a -> fits N b -> disjoint rs a -> disjoint rs b ->
  block (predict p rs os F Q) a b = block p a b.
Proof.
  intros Fa Fb Da Db. apply block_ext. intros i j Hi Hj.
  unfold fits in *. apply predict_elsewhere; try lia.
  - now apply outside_of_disjoint.
  - now apply outside_of_disjoint.
Qed.
End PredictFacts.

(** ** Claims about the motion protocol *)

Section RobotClaims.
Context {R : Type} `{Scalar R}.
Variable move_func : RobotAbstract.motion_model R.
Import RobotAbstract MapAbstract.

(** C1.  A step that returns, on a map whose covariance holds the robot's
    slice and the other objects' slices side by side, with the Jacobian
    XNEW_x of as many rows as the robot has states: the robot's own block
    becomes XNEW_x . P_rr . XNEW_x^t + Q, the cross block of the robot with
    every other tracked object [o] becomes XNEW_x . P_ro, and every block
    between slices that do not meet the robot's is what it was. *)
Theorem move_propagates_the_covariance (N : nat) (r r' : RobotAbstract.t R) :
  move move_func r = Done tt r' ->
  laid_out N (MapAbstract.P (slamMap r)) (state r) (others r) ->
  size1 (XNEW_x r') = len (state r) ->
  let P0 := MapAbstract.P (slamMap r) in
  let P1 := MapAbstract.P (slamMap r') in
  let rs := state r in
  block P1 rs rs = madd (prod_t (prod (XNEW_x r') (block P0 rs rs)) (XNEW_x r')) (Q r')
  /\ (forall o, In o (others r) ->
        block P1 rs o = prod (XNEW_x r') (block P0 rs o))
  /\ (forall a b, fits N a -> fits N b -> disjoint rs a -> disjoint rs b ->
        block P1 a b = block P0 a b).
Proof.
  intros Hmove Hlay HF P0 P1 rs.
  destruct (move_returns move_func r Hmove) as (_ & _ & _ & _ & EP & _).
  unfold P1. rewrite EP. fold P0. fold rs. repeat split.
  - now apply predict_own with (N := N).
  - intros o Ho. now apply predict_cross with (N := N).
  - intros a b Fa Fb Da Db. now apply predict_other_blocks with (N := N) (os := others r).
Qed.

(** C2.  [move(u)] with a vector of another dimension than the control
    throws SizeMismatch and leaves the robot, its control and the map as
    they were; with a vector of the control's dimension it is [move()] run
    on a robot whose control has mean [u] and the covariance, dt and
    continuous members it had, every other member and the map being as
    before. *)
Theorem move_u_checks_the_control_size (u : vec R) (r : RobotAbstract.t R) :
  (length u <> Control.size (control r) ->
   move_u move_func u r =
   Throw (SizeMismatch "robotAbstract.hpp: move: wrong control size.") r)
  /\ (length u = Control.size (control r) ->
      let c' := Control.with_x u (control r) in
      move_u move_func u r = move move_func (with_control c' r)
      /\ Control.x c' = u
      /\ Control.P c' = Control.P (control r)
      /\ Control.dt c' = Control.dt (control r))
  /\ (length u = Control.size (control r) ->
      exists r1,
        move_u move_func u r = move move_func r1
        /\ Control.x (control r1) = u
        /\ Control.P (control r1) = Control.P (control r)
        /\ Control.dt (control r1) = Control.dt (control r)
        /\ Control.size (control r1) = Control.size (control r)
        /\ Control.x_ct (control r1) = Control.x_ct (control r)
        /\ Control.P_ct (control r1) = Control.P_ct (control r)
        /\ slamMap r1 = slamMap r
        /\ state r1 = state r
        /\ XNEW_x r1 = XNEW_x r
        /\ XNEW_control r1 = XNEW_control r
        /\ Q r1 = Q r
        /\ constantPerturbation r1 = constantPerturbation r).
Proof.
  assert (Hstep : length u = Control.size (control r) ->
            move_u move_func u r =
            move move_func (with_control (Control.with_x u (control r)) r)).
  { intros E. unfold move_u, bind, get, JFR_ASSERT. rewrite E, Nat.eqb_refl.
    unfold Control.set_x, Gaussian.set_x, within, bind, get, JFR_ASSERT, put.
    unfold Control.size in E. rewrite E, Nat.eqb_refl. reflexivity. }
  split; [|split].
  - intros E. apply Nat.eqb_neq in E.
    unfold move_u, bind, get, JFR_ASSERT. now rewrite E.
  - intros E c'. repeat split. now apply Hstep.
  - intros E. exists (with_control (Control.with_x u (control r)) r).
    split; [now apply Hstep|]. repeat split.
Qed.

(** C7.  With constantPerturbation set, Q after any run of steps --
    [move()], [move(control)], [move(u)], with calls on the control in
    between, whatever the motion model writes to XNEW_control -- is the Q
    the run started with.  With the flag clear, a [move()] that returns
    leaves in Q the symmetric matrix XNEW_control . control.P .
    XNEW_control^t, computed from the Jacobian of that step. *)
Theorem constant_perturbation_keeps_Q
    (acts : list (action R)) (r : RobotAbstract.t R) :
  (constantPerturbation r = true -> Q (run move_func acts r) = Q r)
  /\ (constantPerturbation r = false ->
      forall r', move move_func r = Done tt r' ->
        Q r' = Q (final (computeStatePerturbation r'))
        /\ Q r' = as_sym_mat
                    (prod_t (prod (XNEW_control r') (Control.P (control r')))
                       (XNEW_control r'))).
Proof.
  split.
  - intros Ec. now apply run_constant_Q.
  - intros Ec r' Hmove.
    destruct (move_returns move_func r Hmove) as (_ & _ & _ & _ & _ & EQ).
    rewrite Ec in EQ. split; [|exact EQ]. cbn. exact EQ.
Qed.

(** C8.  Neither overload of [convert_P_from_continuous] writes [dt],
    returned or thrown, and of the calls on a Control only
    [convert_from_continuous] and an assignment do; after such a call on
    the robot's control, [move_func()] hands the motion model the [dt] the
    control had before. *)
Theorem convert_P_from_continuous_keeps_dt
    (m : sym_mat R) (_dt : R) (r : RobotAbstract.t R) :
  let c := control r in
  Control.dt (final (Control.convert_P_from_continuous _dt c)) = Control.dt c
  /\ Control.dt (final (Control.convert_P_from_continuous_P m _dt c)) = Control.dt c
  /\ (forall k, Control.assigns_dt k = false ->
        Control.dt (final (Control.perform k c)) = Control.dt c)
  /\ (forall c', Control.convert_from_continuous _dt c = Done tt c' ->
        Control.dt c' = _dt)
  /\ (forall k, Control.assigns_dt k = false ->
        let r' := final (act move_func (On_control k) r) in
        move_func_locals move_func r' =
        call_move_func move_func [state_x r'; Control.x (control r')]
          0 1 (Control.dt c) 0 r').
Proof.
  intros c. repeat split.
  - apply (perform_dt (Control.Convert_P _dt)). reflexivity.
  - apply (perform_dt (Control.Convert_P_P m _dt)). reflexivity.
  - intros k Hk. now apply perform_dt.
  - intros c'. unfold_member. unfold Control.size. split_tests; try discriminate.
    now intros [= <-].
  - intros k Hk r'.
    assert (E : Control.dt (control r') = Control.dt c).
    { unfold r', act, within.
      pose proof (perform_dt k c Hk) as E. fold c.
      destruct (Control.perform k c); exact E. }
    unfold move_func_locals, bind, get. now rewrite E.
Qed.

(** C9.  [move(control)] is [move()] run on the robot whose control is the
    argument, whole: mean, covariance, continuous members and dt; the dt the
    robot had is gone and the motion model is handed the argument's.  A
    Control built from a size or from a Gaussian alone has dt = 1. *)
Theorem move_control_replaces_the_control
    (c : Control.t R) (r : RobotAbstract.t R) :
  control (final (set_control c r)) = c
  /\ move_control move_func c r = move move_func (with_control c r)
  /\ (forall c0, move_control move_func c (with_control c0 r) =
                 move_control move_func c r)
  /\ move_func_locals move_func (with_control c r) =
     call_move_func move_func [state_x r; Control.x c] 0 1 (Control.dt c) 0
       (with_control c r)
  /\ (forall n, Control.dt (Control.of_size (R := R) n) = s_one)
  /\ (forall g : Gaussian.t R, Control.dt (Control.of_Gaussian g) = s_one).
Proof. repeat split. Qed.


End RobotClaims.

(** ** Sums and products over a commutative semiring of scalars *)

Section SemiringFacts.
Context {R : Type} `{Scalar R}.
Hypothesis scalar_laws : semi_ring_theory s_zero s_one s_add s_mul (@eq R).

Add Ring scalar_ring : scalar_laws.

Local Open Scope scalar_scope.

Lemma sum_ext n (f g : nat -> R) :
  (forall k, (k < n)%nat -> f k = g k) -> sum n f = sum n g.
Proof.
  induction n as [|n IH]; intros E; [reflexivity|].
  cbn. rewrite IH, E by auto with arith. reflexivity.
Qed.

Lemma sum_zero n : sum n (fun _ => s_zero) = s_zero.
Proof. induction n as [|n IH]; [reflexivity|]. cbn. rewrite IH. ring. Qed.

Lemma sum_add n (f g : nat -> R) :
  sum n (fun k => f k + g k) = sum n f + sum n g.
Proof. induction n as [|n IH]; cbn; [|rewrite IH]; ring. Qed.

Lemma sum_mul_r n (f : nat -> R) c :
  sum n f * c = sum n (fun k => f k * c).
Proof. induction n as [|n IH]; cbn; [|rewrite <- IH]; ring. Qed.

Lemma sum_swap n m (f : nat -> nat -> R) :
  sum n (fun i => sum m (fun j => f i j)) =
  sum m (fun j => sum n (fun i => f i j)).
Proof.
  induction n as [|n IH]; cbn.
  - now rewrite sum_zero.
  - rewrite IH, <- sum_add. reflexivity.
Qed.

Lemma sum_mul_l n (f : nat -> R) c :
  c * sum n f = sum n (fun k => c * f k).
Proof. induction n as [|n IH]; cbn; [|rewrite <- IH]; ring. Qed.

(** A sum against a unit vector picks one term. *)
Lemma sum_delta n i (g : nat -> R) :
  (i < n)%nat -> sum n (fun k => delta i k * g k) = g i.
Proof.
  induction n as [|n IH]; intros Hi; [lia|].
  cbn [sum]. unfold delta at 2.
  destruct (Nat.eqb_spec n i) as [->|Hn].
  - rewrite (sum_ext _ (fun _ => s_zero)), sum_zero; [ring|].
    intros k Hk. unfold delta.
    destruct (Nat.eqb_spec k i); [lia|ring].
  - rewrite IH by lia. ring.
Qed.

Lemma quad_mk_vec (a : mat R) n (f : nat -> R) :
  quad a (mk_vec n f) = sum n (fun i => sum n (fun j => f i * at_ a i j * f j)).
Proof.
  unfold quad. rewrite length_mk_vec.
  apply sum_ext. intros i Hi. apply sum_ext. intros j Hj.
  now rewrite !vat_mk_vec.
Qed.

(** The bilinear form on two unit vectors is an entry. *)
Lemma form_delta (a : mat R) n i j :
  (i < n)%nat -> (j < n)%nat ->
  sum n (fun x => sum n (fun y => delta i x * at_ a x y * delta j y)) = at_ a i j.
Proof.
  intros Hi Hj.
  rewrite (sum_ext _ (fun x => delta i x * at_ a x j)).
  - exact (sum_delta (fun x => at_ a x j) Hi).
  - intros x _.
    rewrite (sum_ext _ (fun y => delta j y * (delta i x * at_ a x y))).
    + exact (sum_delta (fun y => delta i x * at_ a x y) Hj).
    + intros y _. ring.
Qed.

Lemma quad_unit_vec (a : mat R) n i :
  (i < n)%nat -> quad a (unit_vec n i) = at_ a i i.
Proof. intros Hi. unfold unit_vec. rewrite quad_mk_vec. now apply form_delta. Qed.

Lemma quad_unit_pair (a : mat R) n i j :
  (i < n)%nat -> (j < n)%nat ->
  quad a (unit_pair n i j) = at_ a i i + at_ a i j + (at_ a j i + at_ a j j).
Proof.
  intros Hi Hj. unfold unit_pair. rewrite quad_mk_vec.
  rewrite <- (form_delta a Hi Hi), <- (form_delta a Hi Hj),
    <- (form_delta a Hj Hi), <- (form_delta a Hj Hj).
  rewrite <- !sum_add. apply sum_ext. intros x _.
  rewrite <- !sum_add. apply sum_ext. intros y _. ring.
Qed.

(** Scaling the matrix scales the form. *)
Lemma quad_mscale n (a : mat R) (v : vec R) d :
  has_shape n n a -> length v = n ->
  quad (mscale a d) v = quad a v * d.
Proof.
  intros [An Ar] Hv. unfold quad. rewrite Hv, sum_mul_r.
  apply sum_ext. intros i Hi. rewrite sum_mul_r.
  apply sum_ext. intros j Hj. rewrite at_mscale.
  - ring.
  - unfold size1. lia.
  - unfold rows_of in Ar. rewrite Forall_forall in Ar.
    rewrite (Ar (nth i a [])); [assumption|]. apply nth_In. lia.
Qed.

(** The entries of J . C . J^t for an n x m Jacobian and an m x m
    covariance. *)
Lemma at_J_C_Jt n m (J C : mat R) i j :
  has_shape n m J -> has_shape m m C -> (i < n)%nat -> (j < n)%nat ->
  at_ (prod_t (prod J C) J) i j =
  sum m (fun k => sum m (fun l => at_ J i l * at_ C l k) * at_ J j k).
Proof.
  intros [Jn Jm] [Cm Cr] Hi Hj.
  assert (C2 : size2 C = m).
  { unfold size2. destruct C as [|row C']; [now cbn in *|].
    cbn. now inversion Cr. }
  assert (J2 : size2 J = m).
  { unfold size2. destruct J as [|row J']; [cbn in *; lia|].
    cbn. now inversion Jm. }
  assert (EY : prod J C =
               mk_mat n m (fun i k => sum m (fun l => at_ J i l * at_ C l k))).
  { unfold prod, size1. now rewrite J2, C2, Jn. }
  unfold prod_t. rewrite EY, size1_mk_mat, size2_mk_mat by lia.
  unfold size1. rewrite Jn, at_mk_mat by assumption.
  apply sum_ext. intros k Hk. now rewrite at_mk_mat.
Qed.

(** Outside its rows and columns a table reads as zero. *)
Lemma at_mk_mat_outside n m (f : nat -> nat -> R) i j :
  (n <= i)%nat \/ (m <= j)%nat -> at_ (mk_mat n m f) i j = s_zero.
Proof.
  intros Out. unfold at_.
  destruct (Nat.lt_ge_cases i n) as [Hi|Hi].
  - rewrite nth_mk_mat by assumption. apply nth_overflow.
    rewrite length_mk_vec. lia.
  - rewrite (nth_overflow (mk_mat n m f)).
    + now destruct j.
    + pose proof (size1_mk_mat n m f) as E. unfold size1 in E. lia.
Qed.

Lemma J_C_Jt_symmetric n m (J C : mat R) :
  has_shape n m J -> has_shape m m C -> symmetric C ->
  symmetric (prod_t (prod J C) J).
Proof.
  intros HJ HC Csym i j.
  destruct (Nat.lt_ge_cases i n) as [Hi|Hi], (Nat.lt_ge_cases j n) as [Hj|Hj].
  - rewrite !(at_J_C_Jt HJ HC) by assumption.
    transitivity (sum m (fun k => sum m (fun l => at_ J i l * at_ C l k * at_ J j k))).
    { apply sum_ext. intros k _. apply sum_mul_r. }
    rewrite sum_swap.
    apply sum_ext. intros k _. rewrite sum_mul_r.
    apply sum_ext. intros l _. rewrite (Csym k l). ring.
  - assert (E : size1 (prod J C) = n).
    { unfold prod. rewrite size1_mk_mat. apply HJ. }
    unfold prod_t. rewrite E. destruct HJ as [Jn _]. unfold size1 at 1 2.
    rewrite Jn, !at_mk_mat_outside by lia. reflexivity.
  - assert (E : size1 (prod J C) = n).
    { unfold prod. rewrite size1_mk_mat. apply HJ. }
    unfold prod_t. rewrite E. destruct HJ as [Jn _]. unfold size1 at 1 2.
    rewrite Jn, !at_mk_mat_outside by lia. reflexivity.
  - assert (E : size1 (prod J C) = n).
    { unfold prod. rewrite size1_mk_mat. apply HJ. }
    unfold prod_t. rewrite E. destruct HJ as [Jn _]. unfold size1 at 1 2.
    rewrite Jn, !at_mk_mat_outside by lia. reflexivity.
Qed.
End SemiringFacts.

Section PerturbationClaims.
Context {R : Type} `{Scalar R}.
Import RobotAbstract.

Local Open Scope scalar_scope.





(** In exact arithmetic nothing is lost: on scalars that form a commutative
    semiring, with a symmetric control covariance, the product is symmetric
    already and Q is the whole of it. *)
Lemma computeStatePerturbation_exact (n m : nat) (r : RobotAbstract.t R) :
  semi_ring_theory s_zero s_one s_add s_mul (@eq R) ->
  has_shape n m (XNEW_control r) ->
  has_shape m m (Control.P (control r)) ->
  symmetric (Control.P (control r)) ->
  Q (final (computeStatePerturbation r)) =
  prod_t (prod (XNEW_control r) (Control.P (control r))) (XNEW_control r).
Proof.
  intros laws HJ HC Csym.
  set (p := prod_t (prod (XNEW_control r) (Control.P (control r))) (XNEW_control r)).
  change (Q (final (computeStatePerturbation r))) with (as_sym_mat p).
  assert (Hp : has_shape n n p).
  { unfold p, prod_t, prod. rewrite size1_mk_mat.
    destruct HJ as [Jn _]. unfold size1. rewrite Jn. apply has_shape_mk_mat. }
  assert (Ep : size1 p = n) by apply Hp.
  rewrite (mat_as_mk_mat Hp) at 2. unfold as_sym_mat. rewrite Ep.
  apply mk_mat_ext. intros i j Hi Hj.
  destruct (Nat.leb_spec j i); [reflexivity|].
  apply (J_C_Jt_symmetric laws HJ HC Csym).
Qed.
End PerturbationClaims.

(** ** Integer scalars *)

Lemma Z_scalar_laws :
  semi_ring_theory (R := Z) s_zero s_one s_add s_mul (@eq Z).
Proof.
  constructor; cbn.
  - exact Z.add_0_l.
  - exact Z.add_comm.
  - exact Z.add_assoc.
  - exact Z.mul_1_l.
  - exact Z.mul_0_l.
  - exact Z.mul_comm.
  - exact Z.mul_assoc.
  - exact Z.mul_add_distr_r.
Qed.

Lemma at_outside_shape n (m : mat Z) i j :
  has_shape n n m -> n <= i \/ n <= j -> at_ m i j = 0%Z.
Proof.
  intros Hm Out. rewrite (mat_as_mk_mat Hm).
  exact (@at_mk_mat_outside Z Z_scalar n n (at_ m) i j Out).
Qed.

(** A nonzero covariance with a nowhere negative form has a direction in
    which the form is positive; scaled by a negative [d] the form is
    negative there. *)
Lemma scaled_form_negative n (m : sym_mat Z) (d : Z) :
  positive_semidefinite n m -> (exists i j, at_ m i j <> 0%Z) -> (d < 0)%Z ->
  exists v : vec Z, length v = n /\ (quad (mscale m d) v < 0)%Z.
Proof.
  intros (Hm & Hsym & Hpos) (i & j & Hij) Hd.
  assert (Hi : i < n).
  { destruct (Nat.lt_ge_cases i n); [assumption|].
    exfalso. apply Hij. apply (at_outside_shape Hm). now left. }
  assert (Hj : j < n).
  { destruct (Nat.lt_ge_cases j n); [assumption|].
    exfalso. apply Hij. apply (at_outside_shape Hm). now right. }
  pose proof (Hpos (unit_vec n i) (length_mk_vec _ _)) as Pi.
  pose proof (Hpos (unit_vec n j) (length_mk_vec _ _)) as Pj.
  pose proof (Hpos (unit_pair n i j) (length_mk_vec _ _)) as Pij.
  rewrite (quad_unit_vec Z_scalar_laws m Hi) in Pi.
  rewrite (quad_unit_vec Z_scalar_laws m Hj) in Pj.
  rewrite (quad_unit_pair Z_scalar_laws m Hi Hj) in Pij.
  pose proof (Hsym i j) as Sij.
  cbn [s_add s_mul s_zero s_one Z_scalar] in *.
  destruct (Z.lt_ge_cases 0 (at_ m i i)) as [Gi|Gi].
  { exists (unit_vec n i). split; [apply length_mk_vec|].
    rewrite (quad_mscale Z_scalar_laws (unit_vec n i) d Hm (length_mk_vec _ _)).
    rewrite (quad_unit_vec Z_scalar_laws m Hi).
    cbn [s_add s_mul s_zero s_one Z_scalar]. nia. }
  destruct (Z.lt_ge_cases 0 (at_ m j j)) as [Gj|Gj].
  { exists (unit_vec n j). split; [apply length_mk_vec|].
    rewrite (quad_mscale Z_scalar_laws (unit_vec n j) d Hm (length_mk_vec _ _)).
    rewrite (quad_unit_vec Z_scalar_laws m Hj).
    cbn [s_add s_mul s_zero s_one Z_scalar]. nia. }
  exists (unit_pair n i j). split; [apply length_mk_vec|].
  rewrite (quad_mscale Z_scalar_laws (unit_pair n i j) d Hm (length_mk_vec _ _)).
  rewrite (quad_unit_pair Z_scalar_laws m Hi Hj).
  cbn [s_add s_mul s_zero s_one Z_scalar]. nia.
Qed.

(** C10.  [convert_P_from_continuous] takes any [_dt]: once a continuous
    covariance [m] is stored, for every [_dt] -- zero and negative ones
    too -- it returns and the covariance is [m * _dt].  Over the integers: if
    [m] is a covariance in the sense of the data model and not zero, and
    [_dt] is negative, the covariance the call leaves has a negative
    quadratic form on some vector, so it is not one any more. *)
Theorem convert_P_from_continuous_takes_any_dt :
  (forall (R : Type) (H : Scalar R) (c c1 : Control.t R) (m : sym_mat R) (_dt : R),
      Control.set_P_continuous m c = Done tt c1 ->
      Control.convert_P_from_continuous _dt c1 =
      Done tt (Control.with_P (mscale m _dt) c1))
  /\ (forall (n : nat) (c c1 : Control.t Z) (m : sym_mat Z) (_dt : Z),
        Control.set_P_continuous m c = Done tt c1 ->
        positive_semidefinite n m ->
        (exists i j, at_ m i j <> 0%Z) ->
        (_dt < 0)%Z ->
        let p := Control.P (final (Control.convert_P_from_continuous _dt c1)) in
        (exists v : vec Z, length v = n /\ (quad p v < 0)%Z)
        /\ ~ positive_semidefinite n p).
Proof.
  assert (Hret : forall (R : Type) (H : Scalar R) (c c1 : Control.t R) m _dt,
             Control.set_P_continuous m c = Done tt c1 ->
             Control.convert_P_from_continuous _dt c1 =
             Done tt (Control.with_P (mscale m _dt) c1)).
  { intros R H c c1 m _dt Hset.
    apply set_P_continuous_returns in Hset as [-> Hm].
    now rewrite convert_P_returns. }
  split; [exact Hret|].
  intros n c c1 m _dt Hset Hpsd Hnz Hd p.
  assert (Ep : p = mscale m _dt).
  { unfold p. now rewrite (Hret _ _ _ _ _ _dt Hset). }
  destruct (scaled_form_negative Hpsd Hnz Hd) as (v & Hv & Hq).
  rewrite Ep. split.
  - now exists v.
  - intros (_ & _ & Hpos). specialize (Hpos v Hv). lia.
Qed.

(** ** Concrete runs *)

Section Runs.
Import RobotAbstract MapAbstract Example.
Local Open Scope Z_scope.

(** C3 as stated fails in two ways.  On a Control of size 0 to which
    nothing was handed, [convert_from_continuous(2)] returns.  On a Control
    of size 1 that was handed a continuous mean and no continuous covariance,
    the only test, on the size of [x_ct], passes: the mean is overwritten
    with [x_ct * 2] and the call then fails in the covariance setter -- with
    the mean changed, and not with UninitializedContinuousState. *)
Lemma convert_from_continuous_does_not_test_P_ct :
  Control.convert_from_continuous 2 (Control.of_size 0) =
    Done tt (Control.with_dt 2 (Control.of_size 0))
  /\ Control.P_ct (final (Control.set_x_continuous [5] (Control.of_size 1))) = []
  /\ Control.x (final (Control.set_x_continuous [5] (Control.of_size 1))) = [0]
  /\ Control.convert_from_continuous 2
       (final (Control.set_x_continuous [5] (Control.of_size 1))) =
     Throw (SizeMismatch "gaussian.hpp: set_P: size mismatch.")
       (Control.with_x [10]
          (final (Control.set_x_continuous [5] (Control.of_size 1)))).
Proof. repeat split. Qed.

(** C5 as stated fails: a Control of size 0 to which nothing was
    ever handed; [convert_P_from_continuous(2)] returns. *)
Lemma convert_P_from_continuous_returns_on_empty_control :
  Control.P_ct (Control.of_size (R := Z) 0) = []
  /\ Control.convert_P_from_continuous 2 (Control.of_size 0) =
     Done tt (Control.of_size 0).
Proof. split; reflexivity. Qed.

End Runs.

(** ** The statements above at concrete inputs *)

Section Witnesses.
Import RobotAbstract MapAbstract Example.
Local Open Scope Z_scope.

(** C1 at [robot0]: own block, cross block with the landmark, the landmark's
    own block. *)
Lemma move_propagates_the_covariance_robot0 :
  block (MapAbstract.P (slamMap (final (move speed_then_position robot0))))
    (0, 2)%nat (0, 2)%nat = [[14; 5]; [5; 6]]
  /\ block (MapAbstract.P (slamMap (final (move speed_then_position robot0))))
       (0, 2)%nat (2, 1)%nat = [[3]; [1]]
  /\ block (MapAbstract.P (slamMap (final (move speed_then_position robot0))))
       (2, 1)%nat (2, 1)%nat = [[3]].
Proof.
  destruct (@move_propagates_the_covariance Z Z_scalar speed_then_position 3%nat
              robot0 (final (move speed_then_position robot0)))
    as (H1 & H2 & H3).
  - reflexivity.
  - repeat split.
    + unfold fits. cbn. lia.
    + repeat constructor; unfold disjoint, fits; cbn; lia.
    + repeat constructor.
  - reflexivity.
  - split; [|split].
    + exact (eq_trans H1 eq_refl).
    + refine (eq_trans (H2 (2, 1)%nat _) eq_refl). cbn. now left.
    + refine (eq_trans (H3 (2, 1)%nat (2, 1)%nat _ _ _ _) eq_refl);
        unfold fits, disjoint; cbn; lia.
Defined.

(** C2 at [robot0], whose control has size 1. *)
Lemma move_u_checks_the_control_size_robot0 :
  move_u speed_then_position [1; 2] robot0 =
    Throw (SizeMismatch "robotAbstract.hpp: move: wrong control size.") robot0
  /\ move_u speed_then_position [5] robot0 =
     move speed_then_position (with_control (Control.with_x [5] control0) robot0).
Proof.
  split.
  - apply (@move_u_checks_the_control_size Z Z_scalar speed_then_position
             [1; 2] robot0).
    cbn. lia.
  - apply (@move_u_checks_the_control_size Z Z_scalar speed_then_position
             [5] robot0).
    reflexivity.
Defined.


(** C5 at a Control of size 1: a failed conversion before anything was
    stored, a conversion after [[2]] was. *)
Lemma convert_P_from_continuous_checks_the_size_at_size_1 :
  Control.convert_P_from_continuous 2
    (Control.after [Control.Set_x_continuous [5]] (Control.of_size 1)) =
    Throw (UninitializedContinuousState
             "Continuous-time covariance not yet initialized.")
      (Control.after [Control.Set_x_continuous [5]] (Control.of_size 1))
  /\ Control.P
       (final (Control.convert_P_from_continuous 2
                 (final (Control.set_P_continuous [[2]] (Control.of_size 1)))))
     = [[4]].
Proof.
  destruct (@convert_P_from_continuous_checks_the_size Z Z_scalar
              (Control.of_size 1) [Control.Set_x_continuous [5]] 2)
    as (H1 & _ & _).
  destruct (@convert_P_from_continuous_checks_the_size Z Z_scalar
              (Control.of_size 1) [] 2)
    as (_ & _ & H3).
  split.
  - apply H1; [split; reflexivity|]. cbn. lia.
  - exact (f_equal (fun o => Control.P (final o))
             (H3 [[2]] (final (Control.set_P_continuous [[2]] (Control.of_size 1)))
                [] eq_refl eq_refl)).
Defined.

(** C3 at a Control of size 1: a failed conversion before anything was
    stored, a conversion after [[2]] and [5] were. *)
Lemma convert_from_continuous_checks_x_ct_at_size_1 :
  Control.convert_from_continuous 3 (Control.of_size 1) =
    Throw (UninitializedContinuousState
             "Continuous-time values not yet initialized.")
      (Control.of_size 1)
  /\ Control.convert_from_continuous 3
       (final (Control.set_x_continuous [5]
                 (final (Control.set_P_continuous [[2]] (Control.of_size 1))))) =
     Done tt
       (Control.mk (Gaussian.mk 1 [15] [[6]]) [5] [[2]] 3).
Proof.
  destruct (@convert_from_continuous_checks_x_ct Z Z_scalar
              (Control.of_size 1) [] 3)
    as (H1 & _ & H3).
  split.
  - apply H1; [split; reflexivity|]. cbn. lia.
  - exact (H3 [[2]] [5]
             (final (Control.set_P_continuous [[2]] (Control.of_size 1)))
             (final (Control.set_x_continuous [5]
                       (final (Control.set_P_continuous [[2]] (Control.of_size 1)))))
             [] eq_refl eq_refl eq_refl eq_refl).
Defined.

(** C7 at [robot1], whose Q was entered by hand, and at [robot0]. *)
Lemma constant_perturbation_keeps_Q_robot1 :
  Q (run speed_then_position
       [Move; Move_u [3]; On_control (Control.Convert_P_P [[7]] 2);
        Move_control (Control.of_size 1); Move] robot1) = [[4; 0]; [0; 4]]
  /\ Q (final (move speed_then_position robot0)) = [[0; 0]; [0; 4]].
Proof.
  split.
  - apply (@constant_perturbation_keeps_Q Z Z_scalar speed_then_position
             [Move; Move_u [3]; On_control (Control.Convert_P_P [[7]] 2);
              Move_control (Control.of_size 1); Move] robot1).
    reflexivity.
  - destruct (@constant_perturbation_keeps_Q Z Z_scalar speed_then_position
                [] robot0) as [_ H2].
    destruct (H2 eq_refl (final (move speed_then_position robot0)) eq_refl)
      as [_ E].
    rewrite E. reflexivity.
Defined.

(** C10 at the covariance [[2, 1], [1, 2]] and dt = -1. *)
Lemma convert_P_from_continuous_takes_any_dt_minus_1 :
  Control.P
    (final (Control.convert_P_from_continuous (-1)
              (final (Control.set_P_continuous [[2; 1]; [1; 2]]
                        (Control.of_size 2)))))
    = [[-2; -1]; [-1; -2]]
  /\ ~ positive_semidefinite 2
         (Control.P
            (final (Control.convert_P_from_continuous (-1)
                      (final (Control.set_P_continuous [[2; 1]; [1; 2]]
                                (Control.of_size 2)))))).
Proof.
  destruct convert_P_from_continuous_takes_any_dt as [H1 H2].
  split.
  - exact (f_equal (fun o => Control.P (final o))
             (H1 Z Z_scalar (Control.of_size 2)
                (final (Control.set_P_continuous [[2; 1]; [1; 2]] (Control.of_size 2)))
                [[2; 1]; [1; 2]] (-1) eq_refl)).
  - apply (H2 2%nat (Control.of_size 2)
             (final (Control.set_P_continuous [[2; 1]; [1; 2]] (Control.of_size 2)))
             [[2; 1]; [1; 2]] (-1)).
    + reflexivity.
    + repeat split.
      * repeat constructor.
      * intros i j. destruct i as [|[|[|i]]], j as [|[|[|j]]]; reflexivity.
      * intros v Hv.
        destruct v as [|a [|b [|? ?]]]; try discriminate.
        cbn. nia.
    + exists 0%nat, 0%nat. cbn. lia.
    + lia.
Defined.
End Witnesses.

(** ** Further properties of Control *)

Section ControlMore.
Context {R : Type} `{Scalar R}.
Implicit Types (c : Control.t R) (k : Control.call R).

Lemma convert_returns c _dt :
  length (Control.x_ct c) = Control.size c ->
  size1 (Control.P_ct c) = Control.size c ->
  Control.convert_from_continuous _dt c =
  Done tt
    (Control.with_dt _dt
       (Control.with_P (mscale (Control.P_ct c) _dt)
          (Control.with_x (vscale (Control.x_ct c) _dt) c))).
Proof. intros Ex EP. now apply convert_from_continuous_cases. Qed.

(** X3.  [convert_from_continuous(Ct, _dt)] throws SizeMismatch and changes
    nothing when [Ct] has not the size of the Control.  With a Gaussian of
    that size, whose mean and covariance have its dimension, it returns: the
    continuous members are Ct's mean and covariance, the mean is
    [Ct.x() * _dt], the covariance [Ct.P() * _dt] and dt is [_dt]. *)
Theorem convert_from_continuous_G_stores_then_discretizes
    (c : Control.t R) (Ct : Gaussian.t R) (_dt : R) :
  (Gaussian.size Ct <> Control.size c ->
   Control.convert_from_continuous_G Ct _dt c =
   Throw (SizeMismatch "Sizes mismatch") c)
  /\ (Gaussian.size Ct = Control.size c -> Gaussian.well_sized Ct ->
      Control.convert_from_continuous_G Ct _dt c =
      Done tt
        (Control.mk
           (Gaussian.mk (Control.size c) (vscale (Gaussian.x Ct) _dt)
              (mscale (Gaussian.P Ct) _dt))
           (Gaussian.x Ct) (Gaussian.P Ct) _dt)).
Proof.
  split.
  - intros E. apply Nat.eqb_neq in E.
    unfold Control.convert_from_continuous_G, bind, get, JFR_ASSERT.
    now rewrite E.
  - intros E [Ex EP].
    unfold Control.convert_from_continuous_G, bind at 1 2, get, JFR_ASSERT.
    rewrite E, Nat.eqb_refl.
    unfold bind at 1. unfold Control.set_P_continuous, bind, get, JFR_ASSERT, put.
    rewrite EP, E, Nat.eqb_refl.
    unfold Control.set_x_continuous, bind, get, JFR_ASSERT, put.
    change (Control.size (Control.with_P_ct (Gaussian.P Ct) c)) with (Control.size c).
    rewrite Ex, E, Nat.eqb_refl.
    rewrite convert_returns.
    + reflexivity.
    + unfold Control.size in *.
      cbn [Control.x_ct Control.P_ct Control.base Control.with_x_ct Control.with_P_ct].
      congruence.
    + unfold Control.size in *.
      cbn [Control.x_ct Control.P_ct Control.base Control.with_x_ct Control.with_P_ct].
      congruence.
Qed.

(** X4.  Discretizing again starts from the stored continuous values, not
    from the last result: with the continuous members stored, a second
    [convert_P_from_continuous] or [convert_from_continuous] leaves the
    Control that a single call with the second interval leaves, and
    [convert_P_from_continuous] after [convert_from_continuous] with the same
    interval changes nothing. *)
Theorem discretizing_again_starts_over (c : Control.t R) (d1 d2 : R) :
  size1 (Control.P_ct c) = Control.size c ->
  final (Control.convert_P_from_continuous d2
           (final (Control.convert_P_from_continuous d1 c))) =
  final (Control.convert_P_from_continuous d2 c)
  /\ (length (Control.x_ct c) = Control.size c ->
      final (Control.convert_from_continuous d2
               (final (Control.convert_from_continuous d1 c))) =
      final (Control.convert_from_continuous d2 c)
      /\ final (Control.convert_P_from_continuous d1
                  (final (Control.convert_from_continuous d1 c))) =
         final (Control.convert_from_continuous d1 c)).
Proof.
  intros EP. split.
  - rewrite (convert_P_returns c d1 EP), (convert_P_returns c d2 EP). cbn [final].
    now rewrite convert_P_returns.
  - intros Ex. rewrite (convert_returns c d1 Ex EP), (convert_returns c d2 Ex EP).
    cbn [final]. split.
    + now rewrite convert_returns.
    + now rewrite convert_P_returns.
Qed.

(** Entries of a scaled matrix outside its rows and columns. *)
Lemma has_shape_mscale n m (a : mat R) d :
  has_shape n m a -> has_shape n m (mscale a d).
Proof.
  intros [An Ar]. split.
  - unfold mscale. now rewrite length_map.
  - unfold rows_of, mscale in *. apply Forall_map.
    revert Ar. apply Forall_impl. intros r Hr. now rewrite length_vscale.
Qed.

Lemma at_outside n (a : mat R) i j :
  has_shape n n a -> n <= i \/ n <= j -> at_ a i j = s_zero.
Proof.
  intros Ha Out. rewrite (mat_as_mk_mat Ha). now apply at_mk_mat_outside.
Qed.

Lemma at_mscale_inside n (a : mat R) d i j :
  has_shape n n a -> i < n -> j < n ->
  at_ (mscale a d) i j = (at_ a i j * d)%sc.
Proof.
  intros [An Ar] Hi Hj. apply at_mscale.
  - unfold size1. lia.
  - unfold rows_of in Ar. rewrite Forall_forall in Ar.
    rewrite (Ar (nth i a [])); [assumption|]. apply nth_In. lia.
Qed.

Lemma symmetric_mscale n (a : mat R) d :
  has_shape n n a -> symmetric a -> symmetric (mscale a d).
Proof.
  intros Hm Hsym i j.
  destruct (Nat.lt_ge_cases i n) as [Hi|Hi], (Nat.lt_ge_cases j n) as [Hj|Hj].
  - rewrite !(at_mscale_inside _ Hm) by assumption. now rewrite (Hsym i j).
  - rewrite !(at_outside (has_shape_mscale _ Hm)) by lia. reflexivity.
  - rewrite !(at_outside (has_shape_mscale _ Hm)) by lia. reflexivity.
  - rewrite !(at_outside (has_shape_mscale _ Hm)) by lia. reflexivity.
Qed.

(** X5.  Discretizing keeps the covariance symmetric: if the stored
    continuous covariance is a symmetric matrix of the control size, the
    covariance [convert_P_from_continuous] leaves is symmetric of that size,
    for any interval and any scalar arithmetic. *)
Theorem convert_P_from_continuous_keeps_symmetry
    (n : nat) (c : Control.t R) (_dt : R) :
  Control.size c = n ->
  has_shape n n (Control.P_ct c) ->
  symmetric (Control.P_ct c) ->
  has_shape n n (Control.P (final (Control.convert_P_from_continuous _dt c)))
  /\ symmetric (Control.P (final (Control.convert_P_from_continuous _dt c))).
Proof.
  intros Es Hm Hsym.
  rewrite convert_P_returns by (destruct Hm as [Hn _]; unfold size1; congruence).
  cbn [final]. change (Control.P (Control.with_P ?m c)) with m.
  split; [now apply has_shape_mscale|now apply symmetric_mscale with (n := n)].
Qed.

(** Every call keeps the sizes. *)
Lemma perform_well_sized k c :
  Control.well_sized c -> Control.well_sized (final (Control.perform k c)).
Proof.
  intros ((Ex & EP) & Hx & HP).
  unfold Control.well_sized, Gaussian.well_sized in *.
  destruct k; unfold_member; unfold Control.size in *; split_tests;
    cbn [Control.base Control.x_ct Control.P_ct Gaussian.x Gaussian.P Gaussian.size];
    rewrite ?length_vscale, ?size1_mscale in *;
    repeat split; auto; try congruence.
Qed.

(** X6.  The sizes of a Control are an invariant of its member functions:
    after any sequence of calls, returned or thrown, the control size is
    what it was, mean and covariance have that size, and each continuous
    member is either still default-constructed or of that size. *)
Theorem calls_keep_the_sizes (ks : list (Control.call R)) (c : Control.t R) :
  Control.well_sized c ->
  Control.size (Control.after ks c) = Control.size c
  /\ Control.well_sized (Control.after ks c).
Proof.
  intros Hc. split; [apply after_size|].
  revert c Hc. induction ks as [|k ks IH]; intros c Hc; [assumption|].
  rewrite after_cons. apply IH. now apply perform_well_sized.
Qed.
End ControlMore.

(** ** The further properties at concrete inputs *)

Section MoreWitnesses.
Import Example.
Local Open Scope Z_scope.

Lemma stored_P_ct_shape : has_shape 2 2 (Control.P_ct stored).
Proof. split; [reflexivity|]. repeat constructor. Qed.

Lemma stored_P_ct_symmetric : symmetric (Control.P_ct stored).
Proof. intros i j. destruct i as [|[|[|i]]], j as [|[|[|j]]]; reflexivity. Qed.

(** X3 at [stored] and a Gaussian of size 2. *)
Lemma convert_from_continuous_G_stores_then_discretizes_at_size_2 :
  Control.convert_from_continuous_G (Gaussian.mk 1 [7] [[1]]) 2 stored =
    Throw (SizeMismatch "Sizes mismatch") stored
  /\ Control.convert_from_continuous_G (Gaussian.mk 2 [1; 2] [[1; 0]; [0; 1]]) 3 stored =
     Done tt
       (Control.mk (Gaussian.mk 2 [3; 6] [[3; 0]; [0; 3]])
          [1; 2] [[1; 0]; [0; 1]] 3).
Proof.
  split.
  - apply (@convert_from_continuous_G_stores_then_discretizes Z Z_scalar
             stored (Gaussian.mk 1 [7] [[1]]) 2).
    cbn. lia.
  - apply (@convert_from_continuous_G_stores_then_discretizes Z Z_scalar
             stored (Gaussian.mk 2 [1; 2] [[1; 0]; [0; 1]]) 3).
    + reflexivity.
    + split; reflexivity.
Defined.

(** X4 at [stored]. *)
Lemma discretizing_again_starts_over_at_stored :
  Control.P (final (Control.convert_P_from_continuous 3
                      (final (Control.convert_P_from_continuous 2 stored)))) =
    [[6; 3]; [3; 6]]
  /\ Control.x (final (Control.convert_from_continuous 3
                         (final (Control.convert_from_continuous 2 stored)))) =
     [9; 12].
Proof.
  destruct (@discretizing_again_starts_over Z Z_scalar stored 2 3 eq_refl)
    as [H1 H2].
  destruct (H2 eq_refl) as [H3 _].
  split.
  - exact (f_equal Control.P H1).
  - exact (f_equal Control.x H3).
Defined.

(** X5 at [stored]. *)
Lemma convert_P_from_continuous_keeps_symmetry_at_stored :
  symmetric (Control.P (final (Control.convert_P_from_continuous 3 stored))).
Proof.
  apply (@convert_P_from_continuous_keeps_symmetry Z Z_scalar 2%nat stored 3).
  - reflexivity.
  - exact stored_P_ct_shape.
  - exact stored_P_ct_symmetric.
Defined.

(** X6 at a Control of size 2 and a run with failing calls in it. *)
Lemma calls_keep_the_sizes_at_size_2 :
  Control.well_sized
    (Control.after
       [Control.Convert 2; Control.Set_x_continuous [1];
        Control.Set_x_continuous [1; 2]; Control.Convert 2;
        Control.Convert_P_P [[1; 0]; [0; 1]] 5; Control.Convert 3]
       (Control.of_size 2)).
Proof.
  apply (@calls_keep_the_sizes Z Z_scalar).
  split; [split; reflexivity|]. split; left; reflexivity.
Defined.
End MoreWitnesses.
